(** * The autonomous coin-collecting player (PlayerClientAuto3.py)

    A shallow embedding of the move-decision engine: the obstacle map built
    from a snapshot's walls, the breadth-first path finder [bfs], the
    nearest-coin selection by [manhattan_distance], the process-wide list
    [fake_coin_positions] and the message callback [on_message].

    Python values are modelled as follows.
    - a coordinate tuple [(row, col)] is a pair of integers [Z * Z];
    - the dict [grid] is a finite map [gmap (Z * Z) string], the set
      [visited] a finite set [gset (Z * Z)];
    - the dict [MOVES] is iterated with [.items()], so it is an association
      list in insertion order;
    - the [deque] is a list, [popleft] takes its head, [append] adds at the
      end;
    - the global list [fake_coin_positions], the messages handed to
      [client.publish] and the random source live in a [world] that a small
      state-and-exception monad threads through [on_message];
    - the [print] calls only write to the console and are left out. *)

From stdpp Require Import base option list sorting gmap sets strings.
From Stdlib Require Import ZArith Lia.

#[local] Set Warnings "-clear-no-such-hyp".

Abbreviation cell := (Z * Z)%type.

(** ** Python primitives used by the client *)

Inductive exn : Type :=
| ValueError   (* list.remove(x): x not in list; min() of an empty sequence *)
| IndexError.  (* random.choice of an empty sequence *)

Inductive result (A : Type) : Type :=
| Ok (a : A)
| Raise (e : exn)
| OutOfFuel.   (* the loop budget of [bfs] ran out; shown never to happen *)
Arguments Ok {A} a.
Arguments Raise {A} e.
Arguments OutOfFuel {A}.

(** [min(l, key=key)]: the first element whose key is smallest; a later
    element replaces the current best only when its key is strictly less. *)
Fixpoint min_from {A : Type} (key : A → Z) (best : A) (l : list A) : A :=
  match l with
  | [] => best
  | x :: l' => if (key x <? key best)%Z then min_from key x l'
               else min_from key best l'
  end.

Definition py_min {A : Type} (key : A → Z) (l : list A) : option A :=
  match l with
  | [] => None
  | x :: l' => Some (min_from key x l')
  end.

(** [l.remove(x)]: drops the first occurrence of [x]; [None] stands for the
    ValueError raised when [x] does not occur. *)
Fixpoint list_remove (x : cell) (l : list cell) : option (list cell) :=
  match l with
  | [] => None
  | y :: l' => if decide (y = x) then Some l'
               else match list_remove x l' with
                    | Some r => Some (y :: r)
                    | None => None
                    end
  end.

(** [s.endswith(suffix)] *)
Definition endswith (s suffix : string) : bool :=
  let n := String.length s in
  let k := String.length suffix in
  bool_decide (k ≤ n) && bool_decide (String.substring (n - k) k s = suffix).

(** ** Constants of the module *)

Definition MOVES : list (string * cell) :=
  [ ("UP", (-1, 0)%Z); ("DOWN", (1, 0)%Z);
    ("LEFT", (0, -1)%Z); ("RIGHT", (0, 1)%Z) ].

(** The value [fake_coin_positions] is bound to when the module is loaded. *)
Definition fake_coin_positions_init : list cell :=
  [ (0, 0)%Z; (0, 9)%Z; (9, 0)%Z; (9, 9)%Z ].

Definition lobby_name : string := "TestLobby".
Definition player_name : string := "Player3".

(** ** manhattan_distance *)

Definition manhattan_distance (pos1 pos2 : cell) : Z :=
  (Z.abs (pos1.1 - pos2.1) + Z.abs (pos1.2 - pos2.2))%Z.

(** ** The obstacle map *)

(** [{(x, y): '.' for x in range(10) for y in range(10)}] *)
Definition board_cells : list cell :=
  x ← seqZ 0 10; y ← seqZ 0 10; [(x, y)].

Definition blank_grid : gmap cell string :=
  foldl (λ grid pos, <[pos := "."]> grid) ∅ board_cells.

(** [for wall in wall_positions: grid[wall] = 'W'] *)
Definition build_grid (wall_positions : list cell) : gmap cell string :=
  foldl (λ grid wall, <[wall := "W"]> grid) blank_grid wall_positions.
Arguments build_grid : simpl never.

(** ** bfs *)

(** [next_pos in grid and grid[next_pos] != 'W'] *)
Definition passable (grid : gmap cell string) (next_pos : cell) : bool :=
  match grid !! next_pos with
  | Some v => bool_decide (v ≠ "W")
  | None => false
  end.

(** The [for move, (dx, dy) in MOVES.items()] loop over the remaining
    [moves], threading [visited] and [queue]. *)
Fixpoint bfs_expand (grid : gmap cell string) (current : cell)
    (path : list string) (moves : list (string * cell))
    (visited : gset cell) (queue : list (cell * list string))
  : gset cell * list (cell * list string) :=
  match moves with
  | [] => (visited, queue)
  | (move, (dx, dy)) :: moves' =>
      let next_pos := (current.1 + dx, current.2 + dy)%Z in
      if passable grid next_pos && bool_decide (next_pos ∉ visited) then
        bfs_expand grid current path moves'
          ({[next_pos]} ∪ visited) (queue ++ [(next_pos, path ++ [move])])
      else bfs_expand grid current path moves' visited queue
  end.

(** The [while queue] loop; [fuel] bounds the number of times the body runs.
    [None] means the budget ran out before the loop ended. *)
Fixpoint bfs_loop (fuel : nat) (grid : gmap cell string) (goal : cell)
    (visited : gset cell) (queue : list (cell * list string))
  : option (list string) :=
  match queue with
  | [] => Some []
  | (current, path) :: queue' =>
      match fuel with
      | O => None
      | S fuel' =>
          if decide (current = goal) then Some path
          else
            let visited1 := {[current]} ∪ visited in
            let '(visited2, queue2) :=
              bfs_expand grid current path MOVES visited1 queue' in
            bfs_loop fuel' grid goal visited2 queue2
      end
  end.

(** Every run of the body but the first pops an entry that was appended
    for a key of [grid] not yet in [visited], so [size grid + 1] runs
    suffice (see [bfs_spec]). *)
Definition bfs (grid : gmap cell string) (start goal : cell)
  : option (list string) :=
  bfs_loop (S (size grid)) grid goal ∅ [(start, [])].
Arguments bfs : simpl never.

(** ** The world and its monad *)

Record world : Type := World {
  fake_coin_positions : list cell;     (* the global list *)
  published : list (string * string);  (* client.publish(topic, payload) calls *)
  random_source : nat → nat            (* the draws random.choice will make *)
}.

Definition M (A : Type) : Type := world → result A * world.

Definition m_ret {A : Type} (a : A) : M A := λ w, (Ok a, w).

Definition m_bind {A B : Type} (m : M A) (k : A → M B) : M B :=
  λ w, match m w with
       | (Ok a, w') => k a w'
       | (Raise e, w') => (Raise e, w')
       | (OutOfFuel, w') => (OutOfFuel, w')
       end.

#[export] Instance M_ret : MRet M := @m_ret.
#[export] Instance M_bind : MBind M := λ A B k m, m_bind m k.

Definition m_raise {A : Type} (e : exn) : M A := λ w, (Raise e, w).

Definition of_option {A : Type} (e : exn) (o : option A) : M A :=
  match o with
  | Some a => m_ret a
  | None => m_raise e
  end.

Definition get_fake_coin_positions : M (list cell) :=
  λ w, (Ok (fake_coin_positions w), w).

(** [fake_coin_positions.remove(x)] on the global list. *)
Definition remove_fake_coin (x : cell) : M unit :=
  λ w, match list_remove x (fake_coin_positions w) with
       | Some l => (Ok tt, World l (published w) (random_source w))
       | None => (Raise ValueError, w)
       end.

(** [random.choice(seq)]: the element at a random index below [len(seq)];
    the draw is consumed. *)
Definition random_choice (seq : list string) : M string :=
  λ w, match seq !! (random_source w 0 `mod` length seq)%nat with
       | Some x => (Ok x, World (fake_coin_positions w) (published w)
                               (λ i, random_source w (S i)))
       | None => (Raise IndexError, w)
       end.

Definition publish (topic payload : string) : M unit :=
  λ w, (Ok tt, World (fake_coin_positions w)
                     (published w ++ [(topic, payload)])
                     (random_source w)).

Definition run_bfs (grid : gmap cell string) (start goal : cell)
  : M (list string) :=
  λ w, match bfs grid start goal with
       | Some path => (Ok path, w)
       | None => (OutOfFuel, w)
       end.

(** ** on_message *)

(** The fields of the decoded payload that the callback reads. *)
Record game_state : Type := GameState {
  currentPosition : cell;
  coin1 : list cell;
  coin2 : list cell;
  coin3 : list cell;
  walls : list cell
}.

Record message : Type := Message {
  topic : string;
  payload : game_state   (* json.loads(msg.payload) *)
}.

(** The local variables of one decision: the coin that was aimed at (the
    source's [nearest_coin] or [nearest_fake_coin], if either was bound),
    the path [bfs] returned for it, and [next_move]. *)
Record decision : Type := Decision {
  target : option cell;
  path_to_target : list string;
  next_move : string
}.

Definition move_keys : list string := MOVES.*1.

(** The body of the callback between building the grid and publishing. *)
Definition choose_move (gs : game_state) : M decision :=
  let current_position := currentPosition gs in
  let coin_positions := coin1 gs ++ coin2 gs ++ coin3 gs in
  let wall_positions := walls gs in
  let grid := build_grid wall_positions in
  if bool_decide (coin_positions ≠ []) then
    nearest_coin ← of_option ValueError
      (py_min (manhattan_distance current_position) coin_positions);
    path_to_nearest_coin ← run_bfs grid current_position nearest_coin;
    match path_to_nearest_coin with
    | first :: _ =>
        m_ret (Decision (Some nearest_coin) path_to_nearest_coin first)
    | [] =>
        mv ← random_choice move_keys;
        m_ret (Decision (Some nearest_coin) path_to_nearest_coin mv)
    end
  else
    fakes ← get_fake_coin_positions;
    if bool_decide (fakes ≠ []) then
      nearest_fake_coin ← of_option ValueError
        (py_min (manhattan_distance current_position) fakes);
      path_to_nearest_fake_coin ←
        run_bfs grid current_position nearest_fake_coin;
      (if bool_decide
            (manhattan_distance current_position nearest_fake_coin ≤ 2)%Z
       then remove_fake_coin nearest_fake_coin else m_ret tt);;
      match path_to_nearest_fake_coin with
      | first :: _ =>
          (if decide (current_position = nearest_fake_coin)
           then remove_fake_coin nearest_fake_coin else m_ret tt);;
          m_ret (Decision (Some nearest_fake_coin)
                          path_to_nearest_fake_coin first)
      | [] =>
          mv ← random_choice move_keys;
          m_ret (Decision (Some nearest_fake_coin)
                          path_to_nearest_fake_coin mv)
      end
    else
      mv ← random_choice move_keys;
      m_ret (Decision None [] mv).

Definition move_topic : string :=
  "games/" +:+ lobby_name +:+ "/" +:+ player_name +:+ "/move".

Definition on_message (msg : message) : M unit :=
  if endswith (topic msg) "/game_state" then
    d ← choose_move (payload msg);
    publish move_topic (next_move d)
  else m_ret tt.

(** The process: the callback runs once per delivered message, one at a
    time; an exception that leaves the callback ends the loop. *)
Definition init_world (rnd : nat → nat) : world :=
  World fake_coin_positions_init [] rnd.

Fixpoint run (msgs : list message) (w : world) : world :=
  match msgs with
  | [] => w
  | msg :: msgs' =>
      match on_message msg w with
      | (Ok _, w') => run msgs' w'
      | (_, w') => w'
      end
  end.

(** ** Reference notions the properties are stated with *)

Definition on_board (c : cell) : bool :=
  bool_decide (0 ≤ c.1 < 10 ∧ 0 ≤ c.2 < 10)%Z.

(** A cell the agent may stand on: on the board and not listed as a wall. *)
Definition clear (wall_positions : list cell) (c : cell) : bool :=
  on_board c && bool_decide (c ∉ wall_positions).

Fixpoint assoc (key : string) (items : list (string * cell)) : option cell :=
  match items with
  | [] => None
  | (k, v) :: items' => if decide (k = key) then Some v else assoc key items'
  end.

(** The offset [MOVES[move]], if [move] is a key. *)
Definition move_delta (move : string) : option cell := assoc move MOVES.
Arguments move_delta : simpl never.

Definition shift (pos d : cell) : cell := (pos.1 + d.1, pos.2 + d.2)%Z.

(** Apply a move sequence from [pos]; every cell stepped onto must satisfy
    [ok], every move must be a key of [MOVES]. *)
Fixpoint follow (ok : cell → bool) (pos : cell) (path : list string)
  : option cell :=
  match path with
  | [] => Some pos
  | move :: path' =>
      match move_delta move with
      | Some d => if ok (shift pos d) then follow ok (shift pos d) path'
                  else None
      | None => None
      end
  end.

(** [reach ok start n c]: [c] is [n] steps away from [start] along
    4-neighbours, each cell stepped onto satisfying [ok]. *)
Inductive reach (ok : cell → bool) (start : cell) : nat → cell → Prop :=
| reach_here : reach ok start 0 start
| reach_step (n : nat) (c c' : cell) :
    reach ok start n c →
    manhattan_distance c c' = 1%Z →
    ok c' = true →
    reach ok start (S n) c'.

(** The position of a move in the enumeration order of [MOVES]. *)
Fixpoint index_of (key : string) (items : list (string * cell)) : nat :=
  match items with
  | [] => 0
  | (k, _) :: items' => if decide (k = key) then 0 else S (index_of key items')
  end.

Definition move_rank (move : string) : nat := index_of move MOVES.

(** Lexicographic comparison of move sequences by [move_rank]. *)
Fixpoint lex_le (p q : list string) : bool :=
  match p, q with
  | [], _ => true
  | _ :: _, [] => false
  | a :: p', b :: q' =>
      if (move_rank a <? move_rank b)%nat then true
      else if (move_rank a =? move_rank b)%nat then lex_le p' q'
      else false
  end.

(** The base-4 value of a path, its digits being the ranks of its moves. *)
Definition code_step (acc : nat) (move : string) : nat :=
  (4 * acc + move_rank move)%nat.
Arguments code_step : simpl never.

Definition lexcode (p : list string) : nat := foldl code_step 0%nat p.

(** Shorter first, then smaller [lexcode]. *)
Definition plt (p q : list string) : Prop :=
  (length p < length q ∨ (length p = length q ∧ lexcode p < lexcode q))%nat.

Definition ple (p q : list string) : Prop :=
  (length p < length q ∨ (length p = length q ∧ lexcode p ≤ lexcode q))%nat.

Definition coins_of (gs : game_state) : list cell :=
  coin1 gs ++ coin2 gs ++ coin3 gs.

Definition game_state_topic : string :=
  "games/" +:+ lobby_name +:+ "/" +:+ player_name +:+ "/game_state".

(** ** The loop invariant of [bfs]

    [P] records, for every cell in [visited], the path it was queued
    with; [ok] is the test a neighbour must pass. *)

(** [u] has left the queue and all its passable neighbours are known. *)
Definition expanded (ok : cell → bool) (goal : cell) (V : gset cell)
    (P : cell → list string) (u : cell) : Prop :=
  u ≠ goal ∧
  ∀ move d, (move, d) ∈ MOVES → ok (shift u d) = true →
            shift u d ∈ V ∧ ple (P (shift u d)) (P u ++ [move]).

Definition entry_lt (e1 e2 : cell * list string) : Prop := plt e1.2 e2.2.

(** At the head of the [while] loop. *)
Record bfs_inv (ok : cell → bool) (start goal : cell) (V : gset cell)
    (Q : list (cell * list string)) (P : cell → list string) : Prop := BfsInv {
  inv_start : start ∈ V ∧ P start = [];
  inv_walk : ∀ v, v ∈ V → follow ok start (P v) = Some v;
  inv_queue : ∀ c q, (c, q) ∈ Q → c ∈ V ∧ P c = q;
  inv_sorted : StronglySorted entry_lt Q;
  inv_bound : ∀ u p Q' v move d,
      Q = (u, p) :: Q' → v ∈ V → (move, d) ∈ MOVES → plt (P v) (p ++ [move]);
  inv_done : ∀ v, v ∈ V → (v, P v) ∈ Q ∨ expanded ok goal V P v
}.

(** Inside the [for] loop that expands [u], popped with path [p], after the
    moves [ms1] and before the moves [ms2]. *)
Record expand_inv (ok : cell → bool) (start goal u : cell) (p : list string)
    (ms1 ms2 : list (string * cell)) (V : gset cell)
    (Q : list (cell * list string)) (P : cell → list string) : Prop := ExpandInv {
  exp_start : start ∈ V ∧ P start = [];
  exp_walk : ∀ v, v ∈ V → follow ok start (P v) = Some v;
  exp_queue : ∀ c q, (c, q) ∈ Q → c ∈ V ∧ P c = q;
  exp_sorted : StronglySorted entry_lt Q;
  exp_current : u ∈ V ∧ P u = p ∧ u ≠ goal;
  exp_front : ∀ c q, (c, q) ∈ Q → plt p q;
  exp_rest : ∀ v move d, v ∈ V → (move, d) ∈ ms2 → plt (P v) (p ++ [move]);
  exp_next : ∀ v q move d,
      v ∈ V → plt p q → (move, d) ∈ MOVES → plt (P v) (q ++ [move]);
  exp_seen : ∀ move d, (move, d) ∈ ms1 → ok (shift u d) = true →
      shift u d ∈ V ∧ ple (P (shift u d)) (p ++ [move]);
  exp_done : ∀ v, v ∈ V → v = u ∨ (v, P v) ∈ Q ∨ expanded ok goal V P v
}.

(** What [bfs] owes its caller: a least path to the goal, or the empty
    list when no path leads there. *)
Definition bfs_post (ok : cell → bool) (start goal : cell)
    (path : list string) : Prop :=
  (follow ok start path = Some goal ∧
   ∀ w, follow ok start w = Some goal → ple path w) ∨
  (path = [] ∧ ∀ w, follow ok start w ≠ Some goal).

(** The number of loop runs still possible. *)
Definition budget (grid : gmap cell string) (V : gset cell)
    (Q : list (cell * list string)) : nat :=
  (size (dom grid ∖ V) + length Q)%nat.

(** ** Further reference notions *)

(** The cells stepped onto, in order, when [path] is applied from [pos]. *)
Fixpoint visits (pos : cell) (path : list string) : list cell :=
  match path with
  | [] => []
  | move :: path' =>
      match move_delta move with
      | Some d => shift pos d :: visits (shift pos d) path'
      | None => []
      end
  end.

(** [c] lies in the rectangle spanned by [a] and [b]. *)
Definition in_box (a b c : cell) : Prop :=
  (Z.min a.1 b.1 ≤ c.1 ≤ Z.max a.1 b.1 ∧
   Z.min a.2 b.2 ≤ c.2 ≤ Z.max a.2 b.2)%Z.

(** The test at the head of the callback. *)
Definition is_game_state (msg : message) : bool :=
  endswith (topic msg) "/game_state".

(** ** ManualPlayerClient.py: the board printed for a human player

    The other client draws each game state as text. Its grid is a list of
    ten rows of ten one-character strings, written by index; Python list
    indices may be negative (counting from the end) and raise IndexError
    outside the list. *)

(** The fields of the decoded payload that this callback reads. *)
Record manual_game_state : Type := ManualGameState {
  m_currentPosition : cell;
  m_teammatePositions : list cell;
  m_enemyPositions : list cell;
  m_coin1 : list cell;
  m_coin2 : list cell;
  m_coin3 : list cell;
  m_walls : list cell
}.

Record manual_message : Type := ManualMessage {
  m_topic : string;
  m_payload : manual_game_state   (* json.loads(msg.payload) *)
}.

(** What a [print] call wrote: the decoded state as a whole
    ([print(game_state)], its text is not modelled) or a line of text. *)
Inductive printed : Type :=
| PrintedState (gs : manual_game_state)
| PrintedLine (line : string).

(** The position that index [i] denotes in a list of length [len]; [None]
    stands for IndexError. *)
Definition py_index (len : nat) (i : Z) : option nat :=
  if bool_decide (0 ≤ i < Z.of_nat len)%Z then Some (Z.to_nat i)
  else if bool_decide (- Z.of_nat len ≤ i < 0)%Z
       then Some (Z.to_nat (i + Z.of_nat len))
  else None.

(** [grid[pos[0]][pos[1]] = v] *)
Definition grid_assign (grid : list (list string)) (pos : cell) (v : string)
  : option (list (list string)) :=
  r ← py_index (length grid) pos.1;
  row ← grid !! r;
  c ← py_index (length row) pos.2;
  Some (<[r := <[c := v]> row]> grid).

(** [for p in positions: grid[p[0]][p[1]] = v] *)
Fixpoint mark_all (v : string) (positions : list cell)
    (grid : list (list string)) : option (list (list string)) :=
  match positions with
  | [] => Some grid
  | p :: positions' =>
      match grid_assign grid p v with
      | Some grid' => mark_all v positions' grid'
      | None => None
      end
  end.

(** [sep.join(l)] *)
Fixpoint join (sep : string) (l : list string) : string :=
  match l with
  | [] => ""
  | x :: l' =>
      match l' with
      | [] => x
      | _ :: _ => x +:+ sep +:+ join sep l'
      end
  end.

(** The grid after all marks: player, teammates, enemies, coins, walls, in
    that order, on [[['.' for _ in range(10)] for _ in range(10)]]. *)
Definition draw_board (gs : manual_game_state)
  : option (list (list string)) :=
  let current_position := m_currentPosition gs in
  let teammate_positions := m_teammatePositions gs in
  let enemy_positions := m_enemyPositions gs in
  let coin_positions := m_coin1 gs ++ m_coin2 gs ++ m_coin3 gs in
  let wall_positions := m_walls gs in
  let grid := replicate 10 (replicate 10 ".") in
  grid ← grid_assign grid current_position "P";
  grid ← mark_all "T" teammate_positions grid;
  grid ← mark_all "E" enemy_positions grid;
  grid ← mark_all "C" coin_positions grid;
  mark_all "W" wall_positions grid.

(** The callback of the manual client: what it prints, and how it ends. *)
Definition manual_on_message (msg : manual_message)
  : list printed * result unit :=
  if endswith (m_topic msg) "/game_state" then
    let game_state := m_payload msg in
    match draw_board game_state with
    | Some grid =>
        ([PrintedState game_state; PrintedLine "Game state:"] ++
         ((λ row, PrintedLine (join " " row)) <$> grid), Ok tt)
    | None => ([PrintedState game_state], Raise IndexError)
    end
  else ([], Ok tt).

(** Reference notions for the board. *)

(** Both components are valid indices of a list of length 10. *)
Definition index_ok (p : cell) : bool :=
  bool_decide (-10 ≤ p.1 < 10 ∧ -10 ≤ p.2 < 10)%Z.

(** The board cell a valid coordinate denotes. *)
Definition wrap_cell (p : cell) : cell := (p.1 `mod` 10, p.2 `mod` 10)%Z.

Definition cell_at (grid : list (list string)) (c : cell) : option string :=
  row ← grid !! Z.to_nat c.1; row !! Z.to_nat c.2.

Definition manual_coins (gs : manual_game_state) : list cell :=
  m_coin1 gs ++ m_coin2 gs ++ m_coin3 gs.

Definition manual_positions (gs : manual_game_state) : list cell :=
  m_currentPosition gs :: m_teammatePositions gs ++ m_enemyPositions gs ++
  manual_coins gs ++ m_walls gs.

(** The symbol a cell shows: the last mark written on it wins. *)
Definition symbol_at (gs : manual_game_state) (c : cell) : string :=
  if bool_decide (c ∈ wrap_cell <$> m_walls gs) then "W"
  else if bool_decide (c ∈ wrap_cell <$> manual_coins gs) then "C"
  else if bool_decide (c ∈ wrap_cell <$> m_enemyPositions gs) then "E"
  else if bool_decide (c ∈ wrap_cell <$> m_teammatePositions gs) then "T"
  else if bool_decide (c = wrap_cell (m_currentPosition gs)) then "P"
  else ".".

(** Ten rows of ten cells. *)
Definition ten_by_ten (grid : list (list string)) : Prop :=
  length grid = 10 ∧ Forall (λ row, length row = 10) grid.

(** * Properties *)

(** ** Paths as numbers *)

Lemma lexcode_snoc p move :
  lexcode (p ++ [move]) = (4 * lexcode p + move_rank move)%nat.
Proof. unfold lexcode. by rewrite foldl_app. Qed.

Lemma plt_ple p q : plt p q → ple p q.
Proof. unfold plt, ple. lia. Qed.

Lemma ple_refl p : ple p p.
Proof. unfold ple. lia. Qed.

Lemma plt_irrefl p : ¬ plt p p.
Proof. unfold plt. lia. Qed.

Lemma plt_trans p q r : plt p q → plt q r → plt p r.
Proof. unfold plt. lia. Qed.

Lemma ple_plt_trans p q r : ple p q → plt q r → plt p r.
Proof. unfold plt, ple. lia. Qed.

Lemma ple_trans p q r : ple p q → ple q r → ple p r.
Proof. unfold ple. lia. Qed.

Lemma ple_or_plt p q : ple p q ∨ plt q p.
Proof. unfold plt, ple. lia. Qed.

Lemma ple_not_plt p q : ple p q → ¬ plt q p.
Proof. unfold plt, ple. lia. Qed.

Lemma plt_snoc_self p move : plt p (p ++ [move]).
Proof. unfold plt. rewrite length_app. simpl. lia. Qed.

Lemma plt_snoc p q a b :
  (move_rank a < 4)%nat → plt p q → plt (p ++ [a]) (q ++ [b]).
Proof.
  unfold plt. rewrite !length_app, !lexcode_snoc. simpl. lia.
Qed.

Lemma ple_snoc p q a : ple p q → ple (p ++ [a]) (q ++ [a]).
Proof.
  unfold ple. rewrite !length_app, !lexcode_snoc. simpl. lia.
Qed.

Lemma plt_snoc_rank p a b :
  (move_rank a < move_rank b)%nat → plt (p ++ [a]) (p ++ [b]).
Proof.
  unfold plt. rewrite !length_app, !lexcode_snoc. simpl. lia.
Qed.

Lemma ple_length p q : ple p q → (length p ≤ length q)%nat.
Proof. unfold ple. lia. Qed.

(** ** The four moves *)

Lemma elem_of_MOVES move d :
  (move, d) ∈ MOVES ↔
  (move, d) = ("UP", (-1, 0)%Z) ∨ (move, d) = ("DOWN", (1, 0)%Z) ∨
  (move, d) = ("LEFT", (0, -1)%Z) ∨ (move, d) = ("RIGHT", (0, 1)%Z).
Proof. unfold MOVES. rewrite !elem_of_cons, elem_of_nil. tauto. Qed.

Lemma move_delta_MOVES move d : (move, d) ∈ MOVES → move_delta move = Some d.
Proof.
  rewrite elem_of_MOVES. intros [H|[H|[H|H]]]; by inversion H.
Qed.

Lemma assoc_elem_of move d items :
  assoc move items = Some d → (move, d) ∈ items.
Proof.
  induction items as [|[k v] items IH]; simpl; [done|].
  case_decide; intros Hv.
  - inversion Hv; subst. left.
  - right. by apply IH.
Qed.

Lemma move_delta_elem_of move d : move_delta move = Some d → (move, d) ∈ MOVES.
Proof. apply assoc_elem_of. Qed.

Lemma MOVES_rank move d : (move, d) ∈ MOVES → (move_rank move < 4)%nat.
Proof.
  rewrite elem_of_MOVES. intros [H|[H|[H|H]]]; inversion H; subst;
    vm_compute; lia.
Qed.

Lemma MOVES_rank_inj a da b db :
  (a, da) ∈ MOVES → (b, db) ∈ MOVES → move_rank a = move_rank b → a = b.
Proof.
  rewrite !elem_of_MOVES.
  intros [Ha|[Ha|[Ha|Ha]]] [Hb|[Hb|[Hb|Hb]]]; inversion Ha; inversion Hb;
    subst; vm_compute; congruence.
Qed.

(** Later items of [MOVES] have larger ranks. *)
Lemma MOVES_split_rank ms1 a da ms2 b db :
  MOVES = ms1 ++ (a, da) :: ms2 → (b, db) ∈ ms2 →
  (move_rank a < move_rank b)%nat.
Proof.
  unfold MOVES. intros Hsplit Hb.
  destruct ms1 as [|x1 [|x2 [|x3 [|x4 [|x5 ms1]]]]]; simplify_eq/=;
    repeat match goal with
           | H : _ ∈ _ :: _ |- _ => apply elem_of_cons in H as [H|H]
           | H : _ ∈ [] |- _ => by apply elem_of_nil in H
           end; simplify_eq; vm_compute; lia.
Qed.

(** Two cells are 4-neighbours exactly when one of the moves links them. *)
Lemma neighbour_iff_move (c c' : cell) :
  manhattan_distance c c' = 1%Z ↔ ∃ move d, (move, d) ∈ MOVES ∧ c' = shift c d.
Proof.
  destruct c as [r k], c' as [r' k']. unfold manhattan_distance, shift.
  simpl. split.
  - intros H.
    assert ((r' = r - 1 ∧ k' = k) ∨ (r' = r + 1 ∧ k' = k) ∨
            (r' = r ∧ k' = k - 1) ∨ (r' = r ∧ k' = k + 1))%Z
      as [[-> ->]|[[-> ->]|[[-> ->]|[-> ->]]]] by lia.
    + exists "UP", (-1, 0)%Z. split; [apply elem_of_MOVES; tauto|].
      simpl. f_equal; lia.
    + exists "DOWN", (1, 0)%Z. split; [apply elem_of_MOVES; tauto|].
      simpl. f_equal; lia.
    + exists "LEFT", (0, -1)%Z. split; [apply elem_of_MOVES; tauto|].
      simpl. f_equal; lia.
    + exists "RIGHT", (0, 1)%Z. split; [apply elem_of_MOVES; tauto|].
      simpl. f_equal; lia.
  - intros (move & d & Hin & Heq). apply elem_of_MOVES in Hin.
    destruct Hin as [H|[H|[H|H]]]; inversion H; subst; simpl in Heq;
      inversion Heq; subst; lia.
Qed.

(** ** Following a path *)

Lemma follow_app ok pos p q :
  follow ok pos (p ++ q) =
  match follow ok pos p with
  | Some c => follow ok c q
  | None => None
  end.
Proof.
  revert pos. induction p as [|move p IH]; intros pos; simpl; [done|].
  destruct (move_delta move) as [d|]; [|done].
  destruct (ok (shift pos d)); [apply IH|done].
Qed.

Lemma follow_snoc_Some ok pos p c move d :
  follow ok pos p = Some c → (move, d) ∈ MOVES → ok (shift c d) = true →
  follow ok pos (p ++ [move]) = Some (shift c d).
Proof.
  intros Hp Hm Hok. rewrite follow_app, Hp. simpl.
  by rewrite (move_delta_MOVES _ _ Hm), Hok.
Qed.

Lemma follow_snoc_inv ok pos p move c' :
  follow ok pos (p ++ [move]) = Some c' →
  ∃ c d, follow ok pos p = Some c ∧ (move, d) ∈ MOVES ∧
         c' = shift c d ∧ ok c' = true.
Proof.
  rewrite follow_app. destruct (follow ok pos p) as [c|]; [|done].
  simpl. destruct (move_delta move) as [d|] eqn:Hd; [|done].
  destruct (ok (shift c d)) eqn:Hok; [|done].
  intros [= <-]. exists c, d. by apply move_delta_elem_of in Hd.
Qed.

Lemma follow_valid ok pos p c :
  follow ok pos p = Some c → Forall (λ move, ∃ d, (move, d) ∈ MOVES) p.
Proof.
  revert pos. induction p as [|move p IH]; intros pos; simpl; [by constructor|].
  destruct (move_delta move) as [d|] eqn:Hd; [|done].
  destruct (ok (shift pos d)); [|done]. intros H. constructor.
  - exists d. by apply move_delta_elem_of.
  - by eapply IH.
Qed.

Lemma follow_ext ok1 ok2 pos p :
  (∀ c, ok1 c = ok2 c) → follow ok1 pos p = follow ok2 pos p.
Proof.
  intros Hext. revert pos. induction p as [|move p IH]; intros pos; simpl;
    [done|].
  destruct (move_delta move) as [d|]; [|done].
  rewrite Hext. destruct (ok2 (shift pos d)); [apply IH|done].
Qed.

(** ** The expansion loop *)

Lemma passable_dom grid c : passable grid c = true → c ∈ dom grid.
Proof.
  unfold passable. destruct (grid !! c) eqn:H; [|done].
  intros _. apply elem_of_dom. eauto.
Qed.

Lemma bfs_expand_budget grid u p ms V Q :
  (budget grid (bfs_expand grid u p ms V Q).1 (bfs_expand grid u p ms V Q).2
   ≤ budget grid V Q)%nat.
Proof.
  revert V Q. induction ms as [|[move [dx dy]] ms IH]; intros V Q; simpl;
    [done|].
  destruct (passable grid _) eqn:Hok; simpl; [|apply IH].
  case_bool_decide as Hnew; simpl; [|apply IH].
  etrans; [apply IH|]. unfold budget. rewrite length_app. simpl.
  apply passable_dom in Hok.
  assert (dom grid ∖ ({[(u.1 + dx, u.2 + dy)%Z]} ∪ V) ⊂ dom grid ∖ V) as Hsub.
  { split; [set_solver|]. intros Hc.
    specialize (Hc (u.1 + dx, u.2 + dy)%Z). set_solver. }
  apply subset_size in Hsub. lia.
Qed.

Lemma bfs_loop_found fuel grid goal V p Q :
  bfs_loop (S fuel) grid goal V ((goal, p) :: Q) = Some p.
Proof. cbn [bfs_loop]. by rewrite decide_True. Qed.

Lemma bfs_loop_step fuel grid goal V u p Q :
  u ≠ goal →
  bfs_loop (S fuel) grid goal V ((u, p) :: Q) =
  bfs_loop fuel grid goal
    (bfs_expand grid u p MOVES ({[u]} ∪ V) Q).1
    (bfs_expand grid u p MOVES ({[u]} ∪ V) Q).2.
Proof.
  intros Hne. cbn [bfs_loop]. rewrite decide_False by done.
  by destruct (bfs_expand grid u p MOVES ({[u]} ∪ V) Q).
Qed.

(** ** The invariants hold

    For a fixed map, start and goal; [ok] is the map's passability test. *)

Section bfs_correct.
Context (grid : gmap cell string) (start goal : cell).

#[local] Abbreviation ok := (passable grid).

(** One more move of the [for] loop keeps [expand_inv]. *)
Lemma expand_inv_skip u p ms1 move d ms2 V Q P :
  expand_inv ok start goal u p ms1 ((move, d) :: ms2) V Q P →
  (ok (shift u d) = true → shift u d ∈ V) →
  expand_inv ok start goal u p (ms1 ++ [(move, d)]) ms2 V Q P.
Proof.
  intros [] Hknown. split; try done.
  - intros v mv dv Hv Hin. apply (exp_rest0 v mv dv); [done|]. by right.
  - intros mv dv Hin Hok. apply elem_of_app in Hin as [Hin|Hin].
    + by apply exp_seen0.
    + apply list_elem_of_singleton in Hin. simplify_eq.
      split; [by apply Hknown|].
      apply plt_ple, (exp_rest0 _ move d); [by apply Hknown|left].
Qed.

Lemma expand_inv_add u p ms1 move d ms2 V Q P :
  MOVES = ms1 ++ (move, d) :: ms2 →
  expand_inv ok start goal u p ms1 ((move, d) :: ms2) V Q P →
  ok (shift u d) = true → shift u d ∉ V →
  expand_inv ok start goal u p (ms1 ++ [(move, d)]) ms2
    ({[shift u d]} ∪ V) (Q ++ [(shift u d, p ++ [move])])
    (λ c, if decide (c = shift u d) then p ++ [move] else P c).
Proof.
  intros Hsplit [] Hok Hnew.
  assert ((move, d) ∈ MOVES) as Hmove.
  { rewrite Hsplit. apply elem_of_app. right. left. }
  assert (∀ v, v ∈ V →
    (if decide (v = shift u d) then p ++ [move] else P v) = P v) as Hold.
  { intros v Hv. case_decide; [by subst|done]. }
  destruct exp_current0 as (Hu & HPu & Hgoal).
  split.
  - destruct exp_start0 as [Hs HPs]. split; [set_solver|].
    by rewrite Hold.
  - intros v [Hv|Hv]%elem_of_union.
    + apply elem_of_singleton in Hv. subst v. rewrite decide_True by done.
      apply follow_snoc_Some; [|done..]. rewrite <- HPu. by apply exp_walk0.
    + rewrite Hold by done. by apply exp_walk0.
  - intros c q [Hin|Hin]%elem_of_app.
    + destruct (exp_queue0 _ _ Hin) as [Hc HPc].
      split; [set_solver|]. by rewrite Hold.
    + apply list_elem_of_singleton in Hin. simplify_eq.
      split; [set_solver|]. by rewrite decide_True.
  - apply StronglySorted_app. split_and!; [|done|repeat constructor].
    intros [c q] e Hin ->%list_elem_of_singleton. unfold entry_lt. simpl.
    destruct (exp_queue0 _ _ Hin) as [Hc <-].
    apply (exp_rest0 c move d); [done|left].
  - split_and!; [set_solver| by rewrite Hold |done].
  - intros c q [Hin|Hin]%elem_of_app; [by eapply exp_front0|].
    apply list_elem_of_singleton in Hin. simplify_eq. apply plt_snoc_self.
  - intros v mv dv [Hv|Hv]%elem_of_union Hin.
    + apply elem_of_singleton in Hv. subst v. rewrite decide_True by done.
      apply plt_snoc_rank. by eapply MOVES_split_rank.
    + rewrite Hold by done. apply (exp_rest0 v mv dv); [done|by right].
  - intros v q mv dv [Hv|Hv]%elem_of_union Hlt Hin.
    + apply elem_of_singleton in Hv. subst v. rewrite decide_True by done.
      apply plt_snoc; [by eapply MOVES_rank|done].
    + rewrite Hold by done. by eapply exp_next0.
  - intros mv dv Hin Hokv. apply elem_of_app in Hin as [Hin|Hin].
    + destruct (exp_seen0 _ _ Hin Hokv) as [Hv Hle].
      split; [set_solver|]. by rewrite Hold.
    + apply list_elem_of_singleton in Hin. simplify_eq.
      split; [set_solver|]. rewrite decide_True by done. apply ple_refl.
  - intros v [Hv|Hv]%elem_of_union.
    + apply elem_of_singleton in Hv. subst v. right; left.
      rewrite decide_True by done. apply elem_of_app. right. left.
    + rewrite Hold by done.
      destruct (exp_done0 _ Hv) as [Heq|[Hin|[Hne Hexp]]]; [by left| |].
      * right; left. apply elem_of_app. by left.
      * right; right. split; [done|]. intros mv dv Hin Hokv.
        destruct (Hexp _ _ Hin Hokv) as [Hn Hle].
        split; [set_solver|]. by rewrite !Hold.
Qed.

Lemma bfs_expand_inv u p ms2 :
  ∀ ms1 V Q P,
    MOVES = ms1 ++ ms2 →
    expand_inv ok start goal u p ms1 ms2 V Q P →
    ∃ P', expand_inv ok start goal u p MOVES []
            (bfs_expand grid u p ms2 V Q).1 (bfs_expand grid u p ms2 V Q).2 P'.
Proof.
  induction ms2 as [|[move [dx dy]] ms2 IH]; intros ms1 V Q P Hsplit Hinv.
  - rewrite app_nil_r in Hsplit. subst ms1. by exists P.
  - simpl. change (u.1 + dx, u.2 + dy)%Z with (shift u (dx, dy)).
    assert (MOVES = (ms1 ++ [(move, (dx, dy))]) ++ ms2) as Hsplit'
      by by rewrite <- app_assoc.
    destruct (ok (shift u (dx, dy))) eqn:Hok; simpl.
    + case_bool_decide as Hnew; simpl.
      * eapply IH; [done|]. by apply expand_inv_add.
      * eapply IH; [done|]. apply expand_inv_skip; [done|].
        by intros _.
    + eapply IH; [done|]. apply expand_inv_skip; [done|]. congruence.
Qed.

(** ** The [while] loop *)

Lemma bfs_inv_pop V u p Q P :
  bfs_inv ok start goal V ((u, p) :: Q) P → u ≠ goal →
  expand_inv ok start goal u p [] MOVES ({[u]} ∪ V) Q P.
Proof.
  intros [] Hgoal.
  destruct (inv_queue0 u p) as [Hu HPu]; [left|].
  assert ({[u]} ∪ V = V) as -> by set_solver.
  apply StronglySorted_cons in inv_sorted0 as [Hfront Hsorted].
  split; try done.
  - intros c q Hin. apply inv_queue0. by right.
  - intros c q Hin. rewrite Forall_forall in Hfront.
    by apply (Hfront (c, q)).
  - intros v move d Hv Hin. by eapply inv_bound0.
  - intros v q move d Hv Hlt Hin.
    eapply plt_trans; [by eapply inv_bound0|].
    apply plt_snoc; [by eapply MOVES_rank|done].
  - intros move d Hin. by apply elem_of_nil in Hin.
  - intros v Hv. destruct (inv_done0 v Hv) as [Hin|Hexp]; [|by right; right].
    apply elem_of_cons in Hin as [Heq|Hin]; [left; congruence|by right; left].
Qed.

Lemma expand_inv_finish u p V Q P :
  expand_inv ok start goal u p MOVES [] V Q P → bfs_inv ok start goal V Q P.
Proof.
  intros []. destruct exp_current0 as (Hu & HPu & Hgoal).
  split; try done.
  - intros u' p' Q' v move d -> Hv Hin.
    eapply exp_next0; [done| |done]. apply (exp_front0 u'). left.
  - intros v Hv. destruct (exp_done0 v Hv) as [->|[Hin|Hexp]];
      [|by left|by right].
    right. split; [done|]. rewrite HPu. apply exp_seen0.
Qed.

Lemma bfs_inv_init :
  bfs_inv ok start goal {[start]} [(start, [])] (λ _, []).
Proof.
  split.
  - split; [set_solver|done].
  - intros v ->%elem_of_singleton. done.
  - intros c q [= -> ->]%list_elem_of_singleton. split; [set_solver|done].
  - repeat constructor.
  - intros u p Q' v move d [= <- <- <-] _ _. unfold plt. simpl. lia.
  - intros v ->%elem_of_singleton. left. left.
Qed.

(** Every cell that a path below the head of the queue leads to has been
    expanded already, with a recorded path that is no larger. *)
Lemma bfs_inv_below V Q P :
  bfs_inv ok start goal V Q P →
  ∀ w c,
    follow ok start w = Some c →
    (∀ u p Q', Q = (u, p) :: Q' → plt w p) →
    c ∈ V ∧ ple (P c) w ∧ expanded ok goal V P c.
Proof.
  intros Hinv. pose proof Hinv as [].
  assert (∀ c w, c ∈ V → ple (P c) w →
     (∀ u p Q', Q = (u, p) :: Q' → plt w p) → expanded ok goal V P c) as Hout.
  { intros c w Hc Hle Hfront. destruct (inv_done0 c Hc) as [Hin|]; [|done].
    exfalso. destruct Q as [|[u p] Q']; [by apply elem_of_nil in Hin|].
    specialize (Hfront u p Q' eq_refl).
    apply StronglySorted_cons in inv_sorted0 as [Hall _].
    rewrite Forall_forall in Hall.
    apply elem_of_cons in Hin as [Heq|Hin].
    - injection Heq as Hcu HPc. rewrite <- HPc in Hfront.
      by apply (ple_not_plt _ _ Hle).
    - specialize (Hall _ Hin). unfold entry_lt in Hall. simpl in Hall.
      apply (ple_not_plt _ _ Hle). by eapply plt_trans. }
  induction w as [|move w IH] using rev_ind; intros c Hw Hfront.
  - simpl in Hw. inversion Hw; subst c. destruct inv_start0 as [Hs HPs].
    assert (ple (P start) []) as Hle by (rewrite HPs; apply ple_refl).
    split_and!; [done..|]. by eapply Hout.
  - apply follow_snoc_inv in Hw as (c0 & d & Hw0 & Hmove & -> & Hok).
    destruct (IH c0 Hw0) as (Hc0 & Hle0 & [_ Hexp]).
    { intros u p Q' HQ. eapply plt_trans; [apply plt_snoc_self|].
      by eapply Hfront. }
    destruct (Hexp _ _ Hmove Hok) as [Hc Hle].
    assert (ple (P (shift c0 d)) (w ++ [move])) as Hle'.
    { eapply ple_trans; [done|]. by apply ple_snoc. }
    split_and!; [done..|]. by eapply Hout.
Qed.

Lemma bfs_loop_spec fuel :
  ∀ V Q P,
    bfs_inv ok start goal V Q P →
    (budget grid V Q ≤ fuel)%nat →
    ∃ path, bfs_loop fuel grid goal V Q = Some path ∧
            bfs_post ok start goal path.
Proof.
  induction fuel as [|fuel IH]; intros V Q P Hinv Hfuel.
  - destruct Q as [|[u p] Q]; [|unfold budget in Hfuel; simpl in Hfuel; lia].
    exists []. split; [done|]. right. split; [done|]. intros w Hw.
    destruct (bfs_inv_below _ _ _ Hinv w goal Hw) as (_ & _ & [Hne _]);
      [done|congruence].
  - destruct Q as [|[u p] Q].
    + exists []. split; [done|]. right. split; [done|]. intros w Hw.
      destruct (bfs_inv_below _ _ _ Hinv w goal Hw) as (_ & _ & [Hne _]);
        [done|congruence].
    + destruct (decide (u = goal)) as [->|Hgoal].
      * exists p. split; [apply bfs_loop_found|]. left.
        pose proof Hinv as []. destruct (inv_queue0 goal p) as [Hg HPg]; [left|].
        split; [rewrite <- HPg; by apply inv_walk0|].
        intros w Hw. destruct (ple_or_plt p w) as [|Hlt]; [done|]. exfalso.
        destruct (bfs_inv_below _ _ _ Hinv w goal Hw) as (_ & _ & [Hne _]);
          [|congruence].
        by intros u p' Q' [= <- <- <-].
      * pose proof (bfs_inv_pop _ _ _ _ _ Hinv Hgoal) as Hexp.
        apply (bfs_expand_inv u p MOVES []) in Hexp as [P' Hexp];
          [|done].
        apply expand_inv_finish in Hexp.
        pose proof (bfs_expand_budget grid u p MOVES ({[u]} ∪ V) Q) as Hb.
        rewrite bfs_loop_step by done.
        destruct (bfs_expand grid u p MOVES ({[u]} ∪ V) Q) as [V2 Q2].
        cbn [fst snd] in *. apply (IH V2 Q2 P'); [done|].
        assert (budget grid ({[u]} ∪ V) Q ≤ budget grid V Q)%nat as Hb'.
        { unfold budget. apply Nat.add_le_mono_r, subseteq_size. set_solver. }
        unfold budget in *. simpl in Hfuel. lia.
Qed.

End bfs_correct.

(** ** bfs *)

Lemma bfs_first_visit fuel grid goal start :
  bfs_loop fuel grid goal ∅ [(start, [])] =
  bfs_loop fuel grid goal {[start]} [(start, [])].
Proof.
  destruct fuel as [|fuel]; [done|].
  destruct (decide (start = goal)) as [->|Hne].
  - by rewrite !bfs_loop_found.
  - rewrite !bfs_loop_step by done.
    by replace ({[start]} ∪ ({[start]} : gset cell)) with
      ({[start]} ∪ (∅ : gset cell)) by set_solver.
Qed.

(** [bfs] always returns, and what it returns meets [bfs_post]. *)
Lemma bfs_spec grid start goal :
  ∃ path, bfs grid start goal = Some path ∧
          bfs_post (passable grid) start goal path.
Proof.
  unfold bfs. rewrite bfs_first_visit.
  apply bfs_loop_spec with (P := λ _, []); [apply bfs_inv_init|].
  unfold budget. simpl. rewrite <- (size_dom (D := gset cell) grid).
  assert (size (dom grid ∖ {[start]}) ≤ size (dom grid))%nat as Hle
    by (apply subseteq_size; set_solver).
  lia.
Qed.

Lemma bfs_same_cell grid start : bfs grid start start = Some [].
Proof. unfold bfs. apply bfs_loop_found. Qed.

(** ** Paths and reachability *)

Lemma reach_follow ok start n c :
  reach ok start n c ↔ ∃ p, length p = n ∧ follow ok start p = Some c.
Proof.
  split.
  - induction 1 as [|n c c' _ (p & Hlen & Hp) Hadj Hok].
    + by exists [].
    + apply neighbour_iff_move in Hadj as (move & d & Hmove & ->).
      exists (p ++ [move]). split; [rewrite length_app; simpl; lia|].
      by apply follow_snoc_Some.
  - intros (p & <- & Hp). revert c Hp.
    induction p as [|move p IH] using rev_ind; intros c Hp.
    + simpl in Hp. inversion Hp. constructor.
    + apply follow_snoc_inv in Hp as (c0 & d & Hp & Hmove & -> & Hok).
      rewrite length_app, Nat.add_comm. simpl.
      apply reach_step with c0; [by apply IH| |done].
      apply neighbour_iff_move. eauto.
Qed.

(** ** The obstacle map *)

Lemma foldl_insert_lookup (v : string) (l : list cell) :
  ∀ (g : gmap cell string) c,
    foldl (λ grid pos, <[pos := v]> grid) g l !! c =
    if decide (c ∈ l) then Some v else g !! c.
Proof.
  induction l as [|x l IH]; intros g c; cbn [foldl].
  - rewrite decide_False; [done|]. apply not_elem_of_nil.
  - rewrite IH. destruct (decide (c ∈ l)) as [Hin|Hin].
    + rewrite decide_True; [done|by right].
    + destruct (decide (c = x)) as [->|Hne].
      * rewrite lookup_insert_eq. rewrite decide_True; [done|left].
      * rewrite lookup_insert_ne by done.
        rewrite decide_False; [done|]. intros [?|?]%elem_of_cons; done.
Qed.

Lemma elem_of_board_cells c : c ∈ board_cells ↔ on_board c = true.
Proof.
  unfold board_cells, on_board. rewrite bool_decide_eq_true.
  destruct c as [x y]. cbn [fst snd]. rewrite list_elem_of_bind. split.
  - intros (x' & Hin & Hx). apply list_elem_of_bind in Hin as (y' & Hin & Hy).
    apply list_elem_of_singleton in Hin. simplify_eq.
    apply elem_of_seqZ in Hx, Hy. lia.
  - intros [Hx Hy]. exists x. split; [|apply elem_of_seqZ; lia].
    apply list_elem_of_bind. exists y. split; [left|apply elem_of_seqZ; lia].
Qed.

Lemma blank_grid_lookup c :
  blank_grid !! c = if on_board c then Some "." else None.
Proof.
  unfold blank_grid. rewrite foldl_insert_lookup, lookup_empty.
  destruct (on_board c) eqn:Hb.
  - rewrite decide_True; [done|]. by apply elem_of_board_cells.
  - rewrite decide_False; [done|]. rewrite elem_of_board_cells. congruence.
Qed.

Lemma build_grid_lookup wall_positions c :
  build_grid wall_positions !! c =
  if decide (c ∈ wall_positions) then Some "W"
  else if on_board c then Some "." else None.
Proof.
  unfold build_grid. by rewrite foldl_insert_lookup, blank_grid_lookup.
Qed.

(** The map answers "passable" exactly for the clear cells. *)
Lemma passable_build_grid wall_positions c :
  passable (build_grid wall_positions) c = clear wall_positions c.
Proof.
  unfold passable, clear. rewrite build_grid_lookup.
  destruct (decide (c ∈ wall_positions)) as [Hin|Hin].
  - rewrite (bool_decide_eq_false_2 (c ∉ wall_positions)) by tauto.
    by rewrite andb_false_r.
  - rewrite (bool_decide_eq_true_2 (c ∉ wall_positions)) by done.
    rewrite andb_true_r. by destruct (on_board c).
Qed.

(** ** The order on paths, read digit by digit *)

Lemma code_lt_mono p :
  ∀ q a b,
    length p = length q →
    Forall (λ move, ∃ d, (move, d) ∈ MOVES) p →
    (a < b)%nat →
    (foldl code_step a p < foldl code_step b q)%nat.
Proof.
  induction p as [|x p IH]; intros [|y q] a b Hlen Hp Hab; simplify_eq/=;
    [done|].
  apply Forall_cons in Hp as [[d Hx%MOVES_rank] Hp].
  apply IH; [done..|unfold code_step; lia].
Qed.

Lemma code_le_lex p :
  ∀ q a,
    length p = length q →
    Forall (λ move, ∃ d, (move, d) ∈ MOVES) p →
    Forall (λ move, ∃ d, (move, d) ∈ MOVES) q →
    (foldl code_step a p ≤ foldl code_step a q)%nat →
    lex_le p q = true.
Proof.
  induction p as [|x p IH]; intros [|y q] a Hlen Hp Hq Hle; simplify_eq/=;
    [done|].
  apply Forall_cons in Hp as [_ Hp]. apply Forall_cons in Hq as [_ Hq].
  destruct (Nat.ltb_spec (move_rank x) (move_rank y)) as [Hlt|Hge]; [done|].
  destruct (Nat.eqb_spec (move_rank x) (move_rank y)) as [Heq|Hne].
  - assert (code_step a x = code_step a y) as Hc
      by (unfold code_step; lia).
    rewrite Hc in Hle. by eapply IH.
  - exfalso.
    pose proof (code_lt_mono q p (code_step a y) (code_step a x)
                  (eq_sym Hlen) Hq) as Hlt.
    assert (code_step a y < code_step a x)%nat as Hc
      by (unfold code_step; lia).
    specialize (Hlt Hc). lia.
Qed.

Lemma code_inj p :
  ∀ q a,
    length p = length q →
    Forall (λ move, ∃ d, (move, d) ∈ MOVES) p →
    Forall (λ move, ∃ d, (move, d) ∈ MOVES) q →
    foldl code_step a p = foldl code_step a q →
    p = q.
Proof.
  induction p as [|x p IH]; intros [|y q] a Hlen Hp Hq Heq; simplify_eq/=;
    [done|].
  apply Forall_cons in Hp as [[dx Hx] Hp].
  apply Forall_cons in Hq as [[dy Hy] Hq].
  pose proof (code_lt_mono q p (code_step a y) (code_step a x)
                (eq_sym Hlen) Hq) as Hlt1.
  pose proof (code_lt_mono p q (code_step a x) (code_step a y)
                Hlen Hp) as Hlt2.
  assert (move_rank x = move_rank y) as Hr.
  { destruct (Nat.lt_trichotomy (move_rank x) (move_rank y)) as [Hc|[Hc|Hc]];
      [|done|].
    - assert (code_step a x < code_step a y)%nat as Hc'
        by (unfold code_step; lia).
      specialize (Hlt2 Hc'). lia.
    - assert (code_step a y < code_step a x)%nat as Hc'
        by (unfold code_step; lia).
      specialize (Hlt1 Hc'). lia. }
  assert (code_step a x = code_step a y) as Hc by (unfold code_step; lia).
  rewrite Hc in Heq.
  f_equal; [by eapply MOVES_rank_inj|by eapply IH].
Qed.

Lemma ple_antisym p q :
  Forall (λ move, ∃ d, (move, d) ∈ MOVES) p →
  Forall (λ move, ∃ d, (move, d) ∈ MOVES) q →
  ple p q → ple q p → p = q.
Proof.
  unfold ple, lexcode. intros Hp Hq H1 H2.
  apply (code_inj p q 0%nat); [lia|done..|lia].
Qed.

Lemma ple_lex_le p q :
  Forall (λ move, ∃ d, (move, d) ∈ MOVES) p →
  Forall (λ move, ∃ d, (move, d) ∈ MOVES) q →
  ple p q → length p = length q → lex_le p q = true.
Proof.
  unfold ple, lexcode. intros Hp Hq Hle Hlen.
  apply (code_le_lex p q 0%nat); [done..|lia].
Qed.

(** [bfs_post] pins the path down. *)
Lemma bfs_post_unique ok start goal p q :
  bfs_post ok start goal p → bfs_post ok start goal q → p = q.
Proof.
  intros [[Hp Hpmin]|[-> Hnone]] [[Hq Hqmin]|[-> Hnone']].
  - apply ple_antisym; [by eapply follow_valid..|by apply Hpmin|by apply Hqmin].
  - by destruct (Hnone' p).
  - by destruct (Hnone q).
  - done.
Qed.

Lemma bfs_post_ext ok1 ok2 start goal p :
  (∀ c, ok1 c = ok2 c) → bfs_post ok1 start goal p → bfs_post ok2 start goal p.
Proof.
  intros Hext [[Hp Hmin]|[-> Hnone]].
  - left. split; [by rewrite <- (follow_ext ok1 ok2)|].
    intros w Hw. apply Hmin. by rewrite (follow_ext ok1 ok2).
  - right. split; [done|]. intros w. rewrite <- (follow_ext ok1 ok2) by done.
    apply Hnone.
Qed.

(** [bfs] reads the map only through [passable]. *)
Lemma bfs_passable_ext grid1 grid2 start goal :
  (∀ c, passable grid1 c = passable grid2 c) →
  bfs grid1 start goal = bfs grid2 start goal.
Proof.
  intros Hext.
  destruct (bfs_spec grid1 start goal) as (p1 & -> & Hp1).
  destruct (bfs_spec grid2 start goal) as (p2 & -> & Hp2).
  f_equal. apply (bfs_post_unique (passable grid2) start goal); [|done].
  by apply (bfs_post_ext (passable grid1)).
Qed.

(** The path [bfs] returns, on the map built from a wall list. *)
Lemma bfs_build_grid wall_positions start goal :
  ∃ path, bfs (build_grid wall_positions) start goal = Some path ∧
          bfs_post (clear wall_positions) start goal path.
Proof.
  destruct (bfs_spec (build_grid wall_positions) start goal) as (p & Hp & Hpost).
  exists p. split; [done|].
  apply (bfs_post_ext (passable (build_grid wall_positions))); [|done].
  apply passable_build_grid.
Qed.

Lemma lex_le_antisym p :
  ∀ q,
    Forall (λ move, ∃ d, (move, d) ∈ MOVES) p →
    Forall (λ move, ∃ d, (move, d) ∈ MOVES) q →
    length p = length q →
    lex_le p q = true → lex_le q p = true → p = q.
Proof.
  induction p as [|x p IH]; intros [|y q] Hp Hq Hlen H1 H2; simplify_eq/=;
    [done|].
  apply Forall_cons in Hp as [[dx Hx] Hp].
  apply Forall_cons in Hq as [[dy Hy] Hq].
  destruct (Nat.ltb_spec (move_rank x) (move_rank y)) as [Hlt|Hge].
  - destruct (Nat.ltb_spec (move_rank y) (move_rank x)); [lia|].
    destruct (Nat.eqb_spec (move_rank y) (move_rank x)); [lia|done].
  - destruct (Nat.eqb_spec (move_rank x) (move_rank y)) as [Heq|]; [|done].
    rewrite Heq, Nat.ltb_irrefl, Nat.eqb_refl in H2.
    f_equal; [by eapply MOVES_rank_inj|by apply IH].
Qed.

(** * Sample runs *)

Example bfs_around_a_wall :
  bfs (build_grid [(5, 6)%Z]) (5, 5)%Z (5, 7)%Z
  = Some ["UP"; "RIGHT"; "RIGHT"; "DOWN"].
Proof. by vm_compute. Qed.

Example bfs_walled_off :
  bfs (build_grid [(4, 7)%Z; (6, 7)%Z; (5, 6)%Z; (5, 8)%Z]) (5, 5)%Z (5, 7)%Z
  = Some [].
Proof. by vm_compute. Qed.

Example bfs_goal_on_wall :
  bfs (build_grid [(5, 7)%Z]) (5, 5)%Z (5, 7)%Z = Some [].
Proof. by vm_compute. Qed.

Example bfs_tie_break :
  bfs (build_grid []) (5, 5)%Z (4, 4)%Z = Some ["UP"; "LEFT"].
Proof. by vm_compute. Qed.

Example bfs_corner_to_corner :
  length <$> bfs (build_grid []) (0, 0)%Z (9, 9)%Z = Some 18%nat.
Proof. by vm_compute. Qed.

Example py_min_first_of_ties :
  py_min (manhattan_distance (5, 5)%Z) [(9, 9)%Z; (5, 7)%Z; (5, 3)%Z]
  = Some (5, 7)%Z.
Proof. reflexivity. Qed.

(** Standing on the fallback coin (0,0): it is removed, and since the path
    to it is empty the move is a random one. *)
Example standing_on_a_fallback_coin :
  on_message (Message game_state_topic (GameState (0, 0)%Z [] [] [] []))
             (init_world (λ _, 2%nat))
  = (Ok tt, World [(0, 9)%Z; (9, 0)%Z; (9, 9)%Z]
                  [(move_topic, "LEFT")] (λ _, 2%nat)).
Proof. by vm_compute. Qed.

(** The only coin is boxed in: the move is whatever the random source
    draws. *)
Example boxed_in_coin (k : nat) :
  k < 4 →
  (published
     (on_message
        (Message game_state_topic
           (GameState (5, 5)%Z [(2, 2)%Z] [] []
                      [(1, 2)%Z; (3, 2)%Z; (2, 1)%Z; (2, 3)%Z]))
        (init_world (λ _, k))).2).*2
  = option_list (move_keys !! k).
Proof.
  intros Hk.
  destruct k as [|[|[|[|k]]]]; [by vm_compute..|lia].
Qed.

(** * The path finder *)

(** C1. On the map built from any wall list, for any start cell and any goal
    reachable from it (the bounds on start and goal are not needed: every
    cell stepped onto is on the board because it is clear), [bfs] returns a
    path that, followed from the start, steps only onto cells that are on
    the board and not walls, ends at the goal, and is as long as the
    distance from start to goal: the goal is reachable in that many steps
    and in no fewer. *)
Theorem bfs_shortest_path (wall_positions : list cell) (start goal : cell)
    (n : nat) :
  reach (clear wall_positions) start n goal →
  ∃ path,
    bfs (build_grid wall_positions) start goal = Some path ∧
    follow (clear wall_positions) start path = Some goal ∧
    reach (clear wall_positions) start (length path) goal ∧
    ∀ m, reach (clear wall_positions) start m goal → length path ≤ m.
Proof.
  intros Hreach.
  destruct (bfs_build_grid wall_positions start goal)
    as (path & Hbfs & [[Hpath Hmin]|[_ Hnone]]).
  - exists path. split_and!; [done..| |].
    + apply reach_follow. by exists path.
    + intros m (w & <- & Hw)%reach_follow. by apply ple_length, Hmin.
  - apply reach_follow in Hreach as (w & _ & Hw). by destruct (Hnone w).
Qed.

Lemma bfs_shortest_path_witness :
  ∃ path,
    bfs (build_grid [(5, 6)%Z]) (5, 5)%Z (5, 7)%Z = Some path ∧
    follow (clear [(5, 6)%Z]) (5, 5)%Z path = Some (5, 7)%Z ∧
    reach (clear [(5, 6)%Z]) (5, 5)%Z (length path) (5, 7)%Z ∧
    ∀ m, reach (clear [(5, 6)%Z]) (5, 5)%Z m (5, 7)%Z → length path ≤ m.
Proof.
  apply (bfs_shortest_path [(5, 6)%Z] (5, 5)%Z (5, 7)%Z 4).
  apply (reach_step _ _ 3 (4, 7)%Z); [|reflexivity..].
  apply (reach_step _ _ 2 (4, 6)%Z); [|reflexivity..].
  apply (reach_step _ _ 1 (4, 5)%Z); [|reflexivity..].
  apply (reach_step _ _ 0 (5, 5)%Z); [|reflexivity..].
  apply reach_here.
Defined.

(** The [for] loop queues the neighbours of a cell in the order UP, DOWN,
    LEFT, RIGHT when all four are passable and new. *)
Lemma bfs_expand_order grid current path visited queue :
  passable grid (shift current (-1, 0)%Z) = true →
  passable grid (shift current (1, 0)%Z) = true →
  passable grid (shift current (0, -1)%Z) = true →
  passable grid (shift current (0, 1)%Z) = true →
  shift current (-1, 0)%Z ∉ visited →
  shift current (1, 0)%Z ∉ visited →
  shift current (0, -1)%Z ∉ visited →
  shift current (0, 1)%Z ∉ visited →
  bfs_expand grid current path MOVES visited queue =
    ({[shift current (0, 1)%Z]} ∪ ({[shift current (0, -1)%Z]} ∪
       ({[shift current (1, 0)%Z]} ∪
          ({[shift current (-1, 0)%Z]} ∪ visited))),
     queue ++ [ (shift current (-1, 0)%Z, path ++ ["UP"]);
                (shift current (1, 0)%Z, path ++ ["DOWN"]);
                (shift current (0, -1)%Z, path ++ ["LEFT"]);
                (shift current (0, 1)%Z, path ++ ["RIGHT"]) ]).
Proof.
  destruct current as [r c]. unfold shift. cbn [fst snd].
  intros Hu Hd Hl Hr Hnu Hnd Hnl Hnr.
  unfold MOVES. cbn [bfs_expand fst snd].
  rewrite Hu, (bool_decide_eq_true_2 _ Hnu). cbn [andb].
  rewrite Hd, bool_decide_eq_true_2; cbn [andb].
  2:{ apply not_elem_of_union. split; [|done].
      rewrite elem_of_singleton. intros [= ?]. lia. }
  rewrite Hl, bool_decide_eq_true_2; cbn [andb].
  2:{ rewrite !not_elem_of_union, !elem_of_singleton.
      split_and!; [intros [= ?]; lia..|done]. }
  rewrite Hr, bool_decide_eq_true_2; cbn [andb].
  2:{ rewrite !not_elem_of_union, !elem_of_singleton.
      split_and!; [intros [= ?]; lia..|done]. }
  by rewrite <- !app_assoc.
Qed.

(** C8. [bfs] is a function of the map, the start and the goal: [MOVES]
    is enumerated in the order UP, DOWN, LEFT, RIGHT and the neighbours of
    a cell are queued in that order; every invocation has one and the same
    result, and that result is fixed by the enumeration order: whenever
    some path leads to the goal, the result is a path that leads to the
    goal, it is a shortest one, and among the shortest ones it is the first
    in the lexicographic order UP < DOWN < LEFT < RIGHT, and the only one
    that is first; when no path leads to the goal the result is empty. *)
Theorem bfs_deterministic (grid : gmap cell string) (start goal : cell) :
  MOVES.*1 = ["UP"; "DOWN"; "LEFT"; "RIGHT"] ∧
  (∀ current path visited queue,
     passable grid (shift current (-1, 0)%Z) = true →
     passable grid (shift current (1, 0)%Z) = true →
     passable grid (shift current (0, -1)%Z) = true →
     passable grid (shift current (0, 1)%Z) = true →
     shift current (-1, 0)%Z ∉ visited →
     shift current (1, 0)%Z ∉ visited →
     shift current (0, -1)%Z ∉ visited →
     shift current (0, 1)%Z ∉ visited →
     (bfs_expand grid current path MOVES visited queue).2 =
       queue ++ [ (shift current (-1, 0)%Z, path ++ ["UP"]);
                  (shift current (1, 0)%Z, path ++ ["DOWN"]);
                  (shift current (0, -1)%Z, path ++ ["LEFT"]);
                  (shift current (0, 1)%Z, path ++ ["RIGHT"]) ]) ∧
  ∃ path,
    bfs grid start goal = Some path ∧
    (∀ path', bfs grid start goal = Some path' → path' = path) ∧
    (∀ w, follow (passable grid) start w = Some goal →
          follow (passable grid) start path = Some goal ∧
          length path ≤ length w ∧
          (length w = length path →
           lex_le path w = true ∧ (lex_le w path = true → w = path))) ∧
    ((∀ w, follow (passable grid) start w ≠ Some goal) → path = []).
Proof.
  split; [done|]. split.
  { intros current path visited queue Hu Hd Hl Hr Hnu Hnd Hnl Hnr.
    by rewrite bfs_expand_order. }
  destruct (bfs_spec grid start goal) as (path & Hbfs & Hpost).
  exists path. split_and!; [done|congruence| |].
  - intros w Hw. destruct Hpost as [[Hpath Hmin]|[_ Hnone]];
      [|by destruct (Hnone w)].
    pose proof (follow_valid _ _ _ _ Hpath) as Hvp.
    pose proof (follow_valid _ _ _ _ Hw) as Hvw.
    split_and!; [done|by apply ple_length, Hmin|]. intros Hlen.
    assert (lex_le path w = true) as Hle by (apply ple_lex_le; auto).
    split; [done|]. intros Hge. by apply lex_le_antisym.
  - intros Hnone. destruct Hpost as [[Hpath _]|[-> _]]; [|done].
    by destruct (Hnone path).
Qed.

(** * The obstacle map and walls outside the board *)

(** C9, counterexample: a wall coordinate outside the 0-9 range is placed in
    the map, under its own key, and the map differs from the one built from
    the walls inside the range. *)
Lemma outside_wall_is_stored :
  build_grid [(10, 0)%Z] !! (10, 0)%Z = Some "W" ∧
  build_grid [(10, 0)%Z]
  ≠ build_grid (filter (λ c, on_board c = true) [(10, 0)%Z]).
Proof.
  split; [by rewrite build_grid_lookup|].
  intros Heq. apply (f_equal (λ g, g !! (10, 0)%Z)) in Heq.
  by rewrite !build_grid_lookup in Heq.
Qed.

(** C9, amended. Building the map succeeds for every wall list. A wall
    coordinate outside the 0-9 range is stored in the map as one more
    impassable entry; it changes the passable/impassable answer of no cell,
    and [bfs] returns the same path as on the map built from the walls
    inside the range only. *)
Theorem outside_walls_harmless (wall_positions : list cell) :
  (∀ c, c ∈ wall_positions → on_board c = false →
        build_grid wall_positions !! c = Some "W") ∧
  (∀ c, passable (build_grid wall_positions) c =
        passable (build_grid (filter (λ c, on_board c = true) wall_positions)) c) ∧
  (∀ start goal,
      bfs (build_grid wall_positions) start goal =
      bfs (build_grid (filter (λ c, on_board c = true) wall_positions))
          start goal).
Proof.
  assert (∀ c, passable (build_grid wall_positions) c =
    passable (build_grid (filter (λ c, on_board c = true) wall_positions)) c)
    as Hsame.
  { intros c. rewrite !passable_build_grid. unfold clear.
    destruct (on_board c) eqn:Hb; [|done]. simpl.
    apply bool_decide_ext. rewrite list_elem_of_filter. tauto. }
  split_and!; [|done|].
  - intros c Hin _. rewrite build_grid_lookup. by rewrite decide_True.
  - intros start goal. by apply bfs_passable_ext.
Qed.

Lemma outside_walls_harmless_witness :
  build_grid [(10, 0)%Z; (5, 6)%Z] !! (10, 0)%Z = Some "W" ∧
  bfs (build_grid [(10, 0)%Z; (5, 6)%Z]) (5, 5)%Z (5, 7)%Z =
  bfs (build_grid [(5, 6)%Z]) (5, 5)%Z (5, 7)%Z.
Proof.
  destruct (outside_walls_harmless [(10, 0)%Z; (5, 6)%Z]) as (Hin & _ & Hbfs).
  split.
  - apply Hin; [|reflexivity]. apply elem_of_cons. by left.
  - apply (Hbfs (5, 5)%Z (5, 7)%Z).
Defined.

(** * The Python primitives *)

(** [min_from] returns the first element of [best :: l] with the least key. *)
Lemma min_from_spec {A : Type} (key : A → Z) (l : list A) :
  ∀ best,
    ∃ i, (best :: l) !! i = Some (min_from key best l) ∧
         (∀ x, x ∈ best :: l → (key (min_from key best l) ≤ key x)%Z) ∧
         (∀ j x, (j < i)%nat → (best :: l) !! j = Some x →
                 (key (min_from key best l) < key x)%Z).
Proof.
  induction l as [|y l IH]; intros best; simpl.
  - exists 0%nat. split_and!; [done| |intros; lia].
    intros x ->%list_elem_of_singleton. lia.
  - destruct (Z.ltb_spec (key y) (key best)) as [Hlt|Hge].
    + destruct (IH y) as (i & Hi & Hmin & Hfirst).
      exists (S i). split_and!; [done| |].
      * intros x [->|Hx]%elem_of_cons; [|by apply Hmin].
        assert (key (min_from key y l) ≤ key y)%Z by (apply Hmin; left). lia.
      * intros [|j] x Hj Hx; simplify_eq/=.
        -- assert (key (min_from key y l) ≤ key y)%Z by (apply Hmin; left). lia.
        -- apply (Hfirst j); [lia|done].
    + destruct (IH best) as (i & Hi & Hmin & Hfirst).
      destruct i as [|i].
      * exists 0%nat. split_and!; [done| |intros; lia].
        intros x [->|[->|Hx]%elem_of_cons]%elem_of_cons.
        -- apply Hmin. left.
        -- assert (min_from key best l = best) as -> by (simpl in Hi; congruence).
           lia.
        -- apply Hmin. by right.
      * exists (S (S i)). split_and!; [done| |].
        -- intros x [->|[->|Hx]%elem_of_cons]%elem_of_cons.
           ++ apply Hmin. left.
           ++ assert (key (min_from key best l) ≤ key best)%Z by (apply Hmin; left). lia.
           ++ apply Hmin. by right.
        -- intros [|[|j]] x Hj Hx; simplify_eq/=.
           ++ apply (Hfirst 0%nat); [lia|done].
           ++ specialize (Hfirst 0%nat best). simpl in Hfirst.
              specialize (Hfirst ltac:(lia) eq_refl). lia.
           ++ apply (Hfirst (S j)); [lia|done].
Qed.

Lemma py_min_spec {A : Type} (key : A → Z) (l : list A) :
  l ≠ [] →
  ∃ t i, py_min key l = Some t ∧ l !! i = Some t ∧
         (∀ x, x ∈ l → (key t ≤ key x)%Z) ∧
         (∀ j x, (j < i)%nat → l !! j = Some x → (key t < key x)%Z).
Proof.
  destruct l as [|best l]; [done|]. intros _.
  destruct (min_from_spec key l best) as (i & Hi & Hmin & Hfirst).
  by exists (min_from key best l), i.
Qed.

Lemma list_remove_elem_of x l : x ∈ l → ∃ l', list_remove x l = Some l'.
Proof.
  induction l as [|y l IH]; [by intros ?%elem_of_nil|].
  intros Hin. simpl. case_decide as Hy; [by eexists|].
  apply elem_of_cons in Hin as [->|Hin]; [done|].
  destruct (IH Hin) as [l' ->]. by eexists.
Qed.

Lemma list_remove_sublist x l :
  ∀ l', list_remove x l = Some l' →
        l' `sublist_of` l ∧ length l = S (length l').
Proof.
  induction l as [|y l IH]; intros l'; simpl; [done|].
  case_decide as Hy.
  - intros [= <-]. split; [by apply sublist_cons|done].
  - destruct (list_remove x l) as [r|]; [|done]. intros [= <-].
    destruct (IH r eq_refl) as [Hsub Hlen].
    split; [by apply sublist_skip|simpl; lia].
Qed.

Lemma list_remove_NoDup x l :
  ∀ l', list_remove x l = Some l' → NoDup l → (x ∉ l') ∧ NoDup l'.
Proof.
  induction l as [|y l IH]; intros l'; simpl; [done|].
  intros Hrem [Hy Hnd]%NoDup_cons. case_decide as Hyx.
  - injection Hrem as <-. by subst y.
  - destruct (list_remove x l) as [r|] eqn:Hr; [|done]. injection Hrem as <-.
    destruct (IH r eq_refl Hnd) as [Hx Hndr].
    destruct (list_remove_sublist x l r Hr) as [Hsub _].
    split.
    + intros [?|?]%elem_of_cons; [congruence|done].
    + apply NoDup_cons. split; [|done]. intros Hin. apply Hy.
      by eapply (sublist_subseteq r l).
Qed.

Lemma random_choice_moves w :
  ∃ mv, random_choice move_keys w =
          (Ok mv, World (fake_coin_positions w) (published w)
                        (λ i, random_source w (S i))) ∧
        mv ∈ move_keys ∧
        move_keys !! (random_source w 0 `mod` 4)%nat = Some mv.
Proof.
  unfold random_choice.
  destruct (move_keys !! (random_source w 0 `mod` length move_keys)%nat)
    as [mv|] eqn:Hmv.
  - exists mv. split_and!; [done| |done]. by eapply list_elem_of_lookup_2.
  - apply lookup_ge_None in Hmv.
    pose proof (Nat.mod_upper_bound (random_source w 0) (length move_keys)).
    simpl in *. lia.
Qed.

(** A non-empty result of [bfs] starts with one of the four moves, and the
    start is not the goal. *)
Lemma bfs_first_move grid start goal first rest :
  bfs grid start goal = Some (first :: rest) →
  first ∈ move_keys ∧ start ≠ goal.
Proof.
  intros Hbfs. split.
  - destruct (bfs_spec grid start goal) as (path & Hpath & Hpost).
    rewrite Hbfs in Hpath. injection Hpath as <-.
    destruct Hpost as [[Hw _]|[? _]]; [|done].
    apply follow_valid in Hw. apply Forall_cons in Hw as [[d Hd] _].
    unfold move_keys. apply list_elem_of_fmap. by exists (first, d).
  - intros ->. by rewrite bfs_same_cell in Hbfs.
Qed.

(** * One decision *)

Lemma m_bind_Ok {A B : Type} (m : M A) (k : A → M B) w a w' :
  m w = (Ok a, w') → (m ≫= k) w = k a w'.
Proof. intros H. unfold mbind, M_bind, m_bind. by rewrite H. Qed.

(** Real coins are listed: the nearest one is aimed at, the global list is
    not touched. *)
Lemma choose_move_real gs w :
  coins_of gs ≠ [] →
  ∃ t path mv rnd,
    py_min (manhattan_distance (currentPosition gs)) (coins_of gs) = Some t ∧
    bfs (build_grid (walls gs)) (currentPosition gs) t = Some path ∧
    choose_move gs w =
      (Ok (Decision (Some t) path mv),
       World (fake_coin_positions w) (published w) rnd) ∧
    mv ∈ move_keys ∧
    match path with
    | first :: _ => mv = first ∧ rnd = random_source w
    | [] => move_keys !! (random_source w 0 `mod` 4)%nat = Some mv ∧
            rnd = (λ i, random_source w (S i))
    end.
Proof.
  intros Hcoins. unfold choose_move. fold (coins_of gs).
  rewrite bool_decide_eq_true_2 by done.
  destruct (py_min_spec (manhattan_distance (currentPosition gs)) (coins_of gs))
    as (t & i & Hmin & _); [done|].
  destruct (bfs_spec (build_grid (walls gs)) (currentPosition gs) t)
    as (path & Hbfs & _).
  rewrite Hmin. cbn [of_option].
  rewrite (m_bind_Ok _ _ w t w) by done.
  rewrite (m_bind_Ok _ _ w path w) by (unfold run_bfs; by rewrite Hbfs).
  destruct path as [|first rest].
  - destruct (random_choice_moves w) as (mv & Hrc & Hmv & Hdraw).
    rewrite (m_bind_Ok _ _ _ _ _ Hrc).
    exists t, [], mv, (λ i, random_source w (S i)). by split_and!.
  - exists t, (first :: rest), first, (random_source w).
    destruct (bfs_first_move _ _ _ _ _ Hbfs) as [Hfirst _].
    split_and!; try done. by destruct w.
Qed.

(** No real coin, fallback coins left: the nearest fallback coin is aimed
    at, and it is removed from the list when it is at most 2 away. *)
Lemma choose_move_fake gs w :
  coins_of gs = [] → fake_coin_positions w ≠ [] →
  ∃ t path mv fakes rnd,
    py_min (manhattan_distance (currentPosition gs)) (fake_coin_positions w)
      = Some t ∧
    bfs (build_grid (walls gs)) (currentPosition gs) t = Some path ∧
    choose_move gs w =
      (Ok (Decision (Some t) path mv), World fakes (published w) rnd) ∧
    mv ∈ move_keys ∧
    match path with
    | first :: _ => mv = first ∧ rnd = random_source w
    | [] => move_keys !! (random_source w 0 `mod` 4)%nat = Some mv ∧
            rnd = (λ i, random_source w (S i))
    end ∧
    (((manhattan_distance (currentPosition gs) t ≤ 2)%Z ∧
      list_remove t (fake_coin_positions w) = Some fakes) ∨
     ((2 < manhattan_distance (currentPosition gs) t)%Z ∧
      fakes = fake_coin_positions w)).
Proof.
  intros Hcoins Hfakes. unfold choose_move. fold (coins_of gs).
  rewrite bool_decide_eq_false_2 by (by intros []).
  rewrite (m_bind_Ok _ _ w (fake_coin_positions w) w) by done.
  rewrite bool_decide_eq_true_2 by done.
  destruct (py_min_spec (manhattan_distance (currentPosition gs))
              (fake_coin_positions w)) as (t & i & Hmin & Hi & _); [done|].
  destruct (bfs_spec (build_grid (walls gs)) (currentPosition gs) t)
    as (path & Hbfs & _).
  rewrite Hmin. cbn [of_option].
  rewrite (m_bind_Ok _ _ w t w) by done.
  rewrite (m_bind_Ok _ _ w path w) by (unfold run_bfs; by rewrite Hbfs).
  assert (∃ fakes,
    (if bool_decide (manhattan_distance (currentPosition gs) t ≤ 2)%Z
     then remove_fake_coin t else m_ret tt) w
    = (Ok tt, World fakes (published w) (random_source w)) ∧
    (((manhattan_distance (currentPosition gs) t ≤ 2)%Z ∧
      list_remove t (fake_coin_positions w) = Some fakes) ∨
     ((2 < manhattan_distance (currentPosition gs) t)%Z ∧
      fakes = fake_coin_positions w))) as (fakes & Hprune & Hfakes').
  { case_bool_decide as Hnear.
    - destruct (list_remove_elem_of t (fake_coin_positions w)) as [l' Hl'];
        [by eapply list_elem_of_lookup_2|].
      exists l'. unfold remove_fake_coin. rewrite Hl'. split; [done|by left].
    - exists (fake_coin_positions w).
      split; [by destruct w|right; split; [lia|done]]. }
  rewrite (m_bind_Ok _ _ _ _ _ Hprune).
  destruct path as [|first rest].
  - destruct (random_choice_moves (World fakes (published w) (random_source w)))
      as (mv & Hrc & Hmv & Hdraw).
    rewrite (m_bind_Ok _ _ _ _ _ Hrc). simpl.
    exists t, [], mv, fakes, (λ i, random_source w (S i)). by split_and!.
  - destruct (bfs_first_move _ _ _ _ _ Hbfs) as [Hfirst Hne].
    rewrite decide_False by done.
    exists t, (first :: rest), first, fakes, (random_source w).
    by split_and!.
Qed.

(** No coin of either kind: a random move. *)
Lemma choose_move_none gs w :
  coins_of gs = [] → fake_coin_positions w = [] →
  ∃ mv, choose_move gs w =
          (Ok (Decision None [] mv),
           World [] (published w) (λ i, random_source w (S i))) ∧
        mv ∈ move_keys ∧
        move_keys !! (random_source w 0 `mod` 4)%nat = Some mv.
Proof.
  intros Hcoins Hfakes. unfold choose_move. fold (coins_of gs).
  rewrite bool_decide_eq_false_2 by (by intros []).
  rewrite (m_bind_Ok _ _ w (fake_coin_positions w) w) by done.
  rewrite bool_decide_eq_false_2 by (by intros []).
  destruct (random_choice_moves w) as (mv & Hrc & Hmv & Hdraw).
  rewrite (m_bind_Ok _ _ _ _ _ Hrc). rewrite Hfakes. by exists mv.
Qed.

(** An empty path sends the caller to the random branch: the move is the
    one the next random draw picks among the four. *)
Lemma choose_move_no_path gs w d w1 :
  choose_move gs w = (Ok d, w1) → path_to_target d = [] →
  move_keys !! (random_source w 0 `mod` 4)%nat = Some (next_move d).
Proof.
  intros Hd Hpath.
  destruct (decide (coins_of gs = [])) as [Hcoins|Hcoins];
    [destruct (decide (fake_coin_positions w = [])) as [Hfakes|Hfakes]|].
  - destruct (choose_move_none gs w Hcoins Hfakes) as (mv & Hd' & _ & Hdraw).
    rewrite Hd in Hd'. by injection Hd' as -> ->.
  - destruct (choose_move_fake gs w Hcoins Hfakes)
      as (t & path & mv & fakes & rnd & _ & _ & Hd' & _ & Hdraw & _).
    rewrite Hd in Hd'. injection Hd' as -> ->. simpl in Hpath. subst path.
    by destruct Hdraw.
  - destruct (choose_move_real gs w Hcoins)
      as (t & path & mv & rnd & _ & _ & Hd' & _ & Hdraw).
    rewrite Hd in Hd'. injection Hd' as -> ->. simpl in Hpath. subst path.
    by destruct Hdraw.
Qed.

(** C6. On the map built from any wall list, for any start and goal, [bfs]
    returns a list of moves (it never fails and never runs out of budget),
    and that list is empty exactly when start and goal are the same cell or
    the goal cannot be reached from the start. The caller takes an empty
    list as "no path": the move of such a decision is the random draw. *)
Theorem bfs_empty_iff (wall_positions : list cell) (start goal : cell) :
  (∃ path,
     bfs (build_grid wall_positions) start goal = Some path ∧
     (path = [] ↔
      start = goal ∨ ¬ ∃ n, reach (clear wall_positions) start n goal)) ∧
  (∀ gs w d w1,
     choose_move gs w = (Ok d, w1) → path_to_target d = [] →
     move_keys !! (random_source w 0 `mod` 4)%nat = Some (next_move d)).
Proof.
  split; [|apply choose_move_no_path].
  destruct (bfs_build_grid wall_positions start goal)
    as (path & Hbfs & [[Hpath Hmin]|[-> Hnone]]).
  - exists path. split; [done|]. split.
    + intros ->. simpl in Hpath. left. congruence.
    + intros [->|Hno].
      * rewrite bfs_same_cell in Hbfs. congruence.
      * destruct Hno. exists (length path). apply reach_follow. by exists path.
  - exists []. split; [done|]. split; [|done]. intros _. right.
    intros [n (w & _ & Hw)%reach_follow]. by destruct (Hnone w).
Qed.

(** Every decision ends normally, with one of the four moves, the outbox
    untouched and the global list a sublist of what it was. *)
Lemma choose_move_total gs w :
  ∃ d w1,
    choose_move gs w = (Ok d, w1) ∧
    published w1 = published w ∧
    next_move d ∈ move_keys ∧
    fake_coin_positions w1 `sublist_of` fake_coin_positions w.
Proof.
  destruct (decide (coins_of gs = [])) as [Hcoins|Hcoins];
    [destruct (decide (fake_coin_positions w = [])) as [Hfakes|Hfakes]|].
  - destruct (choose_move_none gs w Hcoins Hfakes) as (mv & -> & Hmv & _).
    eexists _, _. split_and!; [done..|]. simpl. apply sublist_nil_l.
  - destruct (choose_move_fake gs w Hcoins Hfakes)
      as (t & path & mv & fakes & rnd & _ & _ & -> & Hmv & _ & Hfakes').
    eexists _, _. split_and!; [done..|]. simpl.
    destruct Hfakes' as [[_ Hrem]|[_ ->]]; [|done].
    by apply list_remove_sublist in Hrem as [? _].
  - destruct (choose_move_real gs w Hcoins)
      as (t & path & mv & rnd & _ & _ & -> & Hmv & _).
    eexists _, _. by split_and!.
Qed.

(** * The callback *)

Lemma on_message_cycle msg w :
  endswith (topic msg) "/game_state" = true →
  ∃ d w1,
    choose_move (payload msg) w = (Ok d, w1) ∧
    on_message msg w =
      (Ok tt, World (fake_coin_positions w1)
                    (published w ++ [(move_topic, next_move d)])
                    (random_source w1)) ∧
    next_move d ∈ move_keys ∧
    fake_coin_positions w1 `sublist_of` fake_coin_positions w.
Proof.
  intros Htopic. unfold on_message. rewrite Htopic.
  destruct (choose_move_total (payload msg) w) as (d & w1 & Hd & Hpub & Hmv & Hsub).
  exists d, w1. rewrite (m_bind_Ok _ _ _ _ _ Hd). unfold publish.
  by rewrite Hpub.
Qed.

Lemma on_message_other msg w :
  endswith (topic msg) "/game_state" = false → on_message msg w = (Ok tt, w).
Proof. intros Htopic. unfold on_message. by rewrite Htopic. Qed.

Lemma on_message_total msg w :
  ∃ w', on_message msg w = (Ok tt, w') ∧
        fake_coin_positions w' `sublist_of` fake_coin_positions w.
Proof.
  destruct (endswith (topic msg) "/game_state") eqn:Htopic.
  - destruct (on_message_cycle msg w Htopic) as (d & w1 & _ & -> & _ & Hsub).
    by eexists.
  - rewrite on_message_other by done. by eexists.
Qed.

Lemma run_cons msg msgs w :
  run (msg :: msgs) w = run msgs (on_message msg w).2.
Proof.
  cbn [run]. by destruct (on_message_total msg w) as (w' & -> & _).
Qed.

Lemma run_app msgs1 msgs2 w :
  run (msgs1 ++ msgs2) w = run msgs2 (run msgs1 w).
Proof.
  revert w. induction msgs1 as [|msg msgs1 IH]; intros w; [done|].
  rewrite <- app_comm_cons, !run_cons. apply IH.
Qed.

Lemma run_sublist msgs w :
  fake_coin_positions (run msgs w) `sublist_of` fake_coin_positions w.
Proof.
  revert w. induction msgs as [|msg msgs IH]; intros w; [done|].
  rewrite run_cons. etrans; [apply IH|].
  by destruct (on_message_total msg w) as (w' & -> & Hsub).
Qed.

Lemma run_NoDup msgs rnd :
  NoDup (fake_coin_positions (run msgs (init_world rnd))).
Proof.
  apply (sublist_NoDup _ fake_coin_positions_init);
    [|apply (run_sublist msgs (init_world rnd))].
  by apply (bool_decide_unpack _).
Qed.

Lemma manhattan_distance_zero c c' :
  (manhattan_distance c c' ≤ 0)%Z → c' = c.
Proof.
  destruct c, c'. unfold manhattan_distance. simpl. intros H.
  f_equal; lia.
Qed.

(** * The decision cycle *)

(** C2. On a game-state message whose real-coin list (coin1, coin2, coin3
    concatenated in that order) is not empty, whatever the fallback list
    holds, the cycle ends normally and the coin it aims at is an element of
    the real-coin list: one whose Manhattan distance to the current position
    is least, and the first such in the list's order; the path is computed
    for that coin and the published move is the decision's move. *)
Theorem nearest_real_coin_is_target (msg : message) (w : world) :
  endswith (topic msg) "/game_state" = true →
  coins_of (payload msg) ≠ [] →
  ∃ d w1 t i,
    choose_move (payload msg) w = (Ok d, w1) ∧
    on_message msg w =
      (Ok tt, World (fake_coin_positions w1)
                    (published w ++ [(move_topic, next_move d)])
                    (random_source w1)) ∧
    target d = Some t ∧
    coins_of (payload msg) !! i = Some t ∧
    (∀ c, c ∈ coins_of (payload msg) →
          (manhattan_distance (currentPosition (payload msg)) t ≤
           manhattan_distance (currentPosition (payload msg)) c)%Z) ∧
    (∀ j c, (j < i)%nat → coins_of (payload msg) !! j = Some c →
            (manhattan_distance (currentPosition (payload msg)) t <
             manhattan_distance (currentPosition (payload msg)) c)%Z) ∧
    bfs (build_grid (walls (payload msg))) (currentPosition (payload msg)) t
      = Some (path_to_target d).
Proof.
  intros Htopic Hcoins.
  destruct (on_message_cycle msg w Htopic) as (d & w1 & Hd & Hmsg & _).
  destruct (choose_move_real (payload msg) w Hcoins)
    as (t & path & mv & rnd & Hmin & Hbfs & Hd' & _).
  destruct (py_min_spec (manhattan_distance (currentPosition (payload msg)))
              (coins_of (payload msg)) Hcoins)
    as (t' & i & Hmin' & Hi & Hleast & Hfirst).
  rewrite Hmin in Hmin'. injection Hmin' as <-.
  rewrite Hd in Hd'. injection Hd' as -> ->.
  exists (Decision (Some t) path mv), (World (fake_coin_positions w) (published w) rnd), t, i.
  by split_and!.
Qed.

Lemma nearest_real_coin_is_target_witness :
  ∃ d w1 t i,
    choose_move (GameState (5, 5)%Z [(9, 9)%Z] [(5, 7)%Z] [(5, 3)%Z] [])
                (init_world (λ _, 0%nat)) = (Ok d, w1) ∧
    on_message
      (Message game_state_topic
         (GameState (5, 5)%Z [(9, 9)%Z] [(5, 7)%Z] [(5, 3)%Z] []))
      (init_world (λ _, 0%nat)) =
      (Ok tt, World (fake_coin_positions w1)
                    ([] ++ [(move_topic, next_move d)])
                    (random_source w1)) ∧
    target d = Some t ∧
    [(9, 9)%Z; (5, 7)%Z; (5, 3)%Z] !! i = Some t ∧
    (∀ c, c ∈ [(9, 9)%Z; (5, 7)%Z; (5, 3)%Z] →
          (manhattan_distance (5, 5)%Z t ≤ manhattan_distance (5, 5)%Z c)%Z) ∧
    (∀ j c, (j < i)%nat → [(9, 9)%Z; (5, 7)%Z; (5, 3)%Z] !! j = Some c →
            (manhattan_distance (5, 5)%Z t < manhattan_distance (5, 5)%Z c)%Z) ∧
    bfs (build_grid []) (5, 5)%Z t = Some (path_to_target d).
Proof.
  apply (nearest_real_coin_is_target
           (Message game_state_topic
              (GameState (5, 5)%Z [(9, 9)%Z] [(5, 7)%Z] [(5, 3)%Z] []))
           (init_world (λ _, 0%nat))).
  - reflexivity.
  - discriminate.
Defined.

(** C3. In any state the process can be in (the seeded list after any
    sequence of messages), on a game-state message with no real coin while
    the fallback list is not empty, the cycle aims at the nearest fallback
    coin; if the current position is within Manhattan distance 2 of it, the
    coin is removed, so it is no longer in the list after the cycle; and if
    the current position is itself a fallback coin, that coin is no longer
    in the list after the cycle. *)
Theorem near_fallback_coin_is_removed (msgs : list message) (rnd : nat → nat)
    (msg : message) :
  endswith (topic msg) "/game_state" = true →
  coins_of (payload msg) = [] →
  fake_coin_positions (run msgs (init_world rnd)) ≠ [] →
  ∃ d w1 t,
    choose_move (payload msg) (run msgs (init_world rnd)) = (Ok d, w1) ∧
    target d = Some t ∧
    py_min (manhattan_distance (currentPosition (payload msg)))
           (fake_coin_positions (run msgs (init_world rnd))) = Some t ∧
    ((manhattan_distance (currentPosition (payload msg)) t ≤ 2)%Z →
     list_remove t (fake_coin_positions (run msgs (init_world rnd))) =
       Some (fake_coin_positions
               (on_message msg (run msgs (init_world rnd))).2) ∧
     t ∉ fake_coin_positions (on_message msg (run msgs (init_world rnd))).2) ∧
    (currentPosition (payload msg)
       ∈ fake_coin_positions (run msgs (init_world rnd)) →
     currentPosition (payload msg)
       ∉ fake_coin_positions (on_message msg (run msgs (init_world rnd))).2).
Proof.
  intros Htopic Hcoins Hfakes.
  pose proof (run_NoDup msgs rnd) as Hnd.
  set (w := run msgs (init_world rnd)) in *.
  destruct (on_message_cycle msg w Htopic) as (d & w1 & Hd & Hmsg & _).
  destruct (choose_move_fake (payload msg) w Hcoins Hfakes)
    as (t & path & mv & fakes & rnd' & Hmin & Hbfs & Hd' & _ & _ & Hprune).
  rewrite Hd in Hd'. injection Hd' as -> ->.
  rewrite Hmsg. cbn [snd fake_coin_positions target].
  assert ((manhattan_distance (currentPosition (payload msg)) t ≤ 2)%Z →
          list_remove t (fake_coin_positions w) = Some fakes ∧ t ∉ fakes)
    as Hnear.
  { intros Hle. destruct Hprune as [[_ Hrem]|[Hfar _]]; [|lia].
    split; [done|]. by destruct (list_remove_NoDup _ _ _ Hrem Hnd). }
  eexists _, _, t. split_and!; [done..|].
  intros Hcur.
  destruct (py_min_spec (manhattan_distance (currentPosition (payload msg)))
              (fake_coin_positions w) Hfakes)
    as (t' & i & Hmin' & _ & Hleast & _).
  rewrite Hmin in Hmin'. injection Hmin' as <-.
  specialize (Hleast _ Hcur).
  assert (manhattan_distance (currentPosition (payload msg))
                             (currentPosition (payload msg)) = 0)%Z as H0
    by (unfold manhattan_distance; lia).
  assert (t = currentPosition (payload msg)) as Ht
    by (apply manhattan_distance_zero; lia).
  rewrite <- Ht. apply Hnear. rewrite Ht. lia.
Qed.

Lemma near_fallback_coin_is_removed_witness :
  ∃ d w1 t,
    choose_move (GameState (0, 0)%Z [] [] [] [])
                (run [] (init_world (λ _, 0%nat))) = (Ok d, w1) ∧
    target d = Some t ∧
    py_min (manhattan_distance (0, 0)%Z)
           (fake_coin_positions (run [] (init_world (λ _, 0%nat)))) = Some t ∧
    ((manhattan_distance (0, 0)%Z t ≤ 2)%Z →
     list_remove t (fake_coin_positions (run [] (init_world (λ _, 0%nat)))) =
       Some (fake_coin_positions
               (on_message
                  (Message game_state_topic (GameState (0, 0)%Z [] [] [] []))
                  (run [] (init_world (λ _, 0%nat)))).2) ∧
     t ∉ fake_coin_positions
           (on_message
              (Message game_state_topic (GameState (0, 0)%Z [] [] [] []))
              (run [] (init_world (λ _, 0%nat)))).2) ∧
    ((0, 0)%Z ∈ fake_coin_positions (run [] (init_world (λ _, 0%nat))) →
     (0, 0)%Z ∉ fake_coin_positions
           (on_message
              (Message game_state_topic (GameState (0, 0)%Z [] [] [] []))
              (run [] (init_world (λ _, 0%nat)))).2).
Proof.
  apply (near_fallback_coin_is_removed []
           (λ _, 0%nat)
           (Message game_state_topic (GameState (0, 0)%Z [] [] [] []))).
  - reflexivity.
  - reflexivity.
  - discriminate.
Defined.

(** C4. Along any sequence of messages from the seeded list, the fallback
    list at a later point is a sublist of the list at any earlier point: it
    is no longer, every coordinate in it was in the earlier list and in the
    seeded list (nothing is added, nothing removed comes back), and once
    empty it stays empty. *)
Theorem fallback_set_only_shrinks (msgs1 msgs2 : list message)
    (rnd : nat → nat) :
  fake_coin_positions (run [] (init_world rnd)) =
    [(0, 0)%Z; (0, 9)%Z; (9, 0)%Z; (9, 9)%Z] ∧
  fake_coin_positions (run (msgs1 ++ msgs2) (init_world rnd))
    `sublist_of` fake_coin_positions (run msgs1 (init_world rnd)) ∧
  (length (fake_coin_positions (run (msgs1 ++ msgs2) (init_world rnd))) ≤
   length (fake_coin_positions (run msgs1 (init_world rnd)))) ∧
  (∀ c, c ∈ fake_coin_positions (run (msgs1 ++ msgs2) (init_world rnd)) →
        c ∈ fake_coin_positions (run msgs1 (init_world rnd)) ∧
        c ∈ fake_coin_positions_init) ∧
  (∀ c, c ∉ fake_coin_positions (run msgs1 (init_world rnd)) →
        c ∉ fake_coin_positions (run (msgs1 ++ msgs2) (init_world rnd))) ∧
  (fake_coin_positions (run msgs1 (init_world rnd)) = [] →
   fake_coin_positions (run (msgs1 ++ msgs2) (init_world rnd)) = []).
Proof.
  pose proof (run_sublist (msgs1 ++ msgs2) (init_world rnd)) as Hseed.
  rewrite run_app.
  pose proof (run_sublist msgs2 (run msgs1 (init_world rnd))) as Hsub.
  split_and!; [done|done|by apply sublist_length| | |].
  - intros c Hc. split; [by eapply sublist_subseteq|].
    rewrite run_app in Hseed. by eapply (sublist_subseteq _ _ Hseed).
  - intros c Hc Hin. apply Hc. by eapply sublist_subseteq.
  - intros Hnil. rewrite Hnil in Hsub. by apply sublist_nil_r.
Qed.

(** C5. On every game-state message, in every state of the global list and
    for every snapshot (whatever its coordinates, duplicates across coins
    and walls included), the cycle ends normally (no exception, the budget
    of [bfs] suffices) and publishes exactly one message, on the move
    topic, whose payload is one of UP, DOWN, LEFT, RIGHT. *)
Theorem decision_cycle_emits_one_move (msg : message) (w : world) :
  endswith (topic msg) "/game_state" = true →
  ∃ mv w',
    on_message msg w = (Ok tt, w') ∧
    published w' = published w ++ [(move_topic, mv)] ∧
    mv ∈ ["UP"; "DOWN"; "LEFT"; "RIGHT"].
Proof.
  intros Htopic.
  destruct (on_message_cycle msg w Htopic) as (d & w1 & _ & -> & Hmv & _).
  by eexists _, _.
Qed.

Lemma decision_cycle_emits_one_move_witness :
  ∃ mv w',
    on_message
      (Message game_state_topic
         (GameState (5, 5)%Z [(5, 7)%Z] [] [(5, 7)%Z] [(5, 7)%Z; (5, 7)%Z]))
      (init_world (λ _, 7%nat)) = (Ok tt, w') ∧
    published w' = [] ++ [(move_topic, mv)] ∧
    mv ∈ ["UP"; "DOWN"; "LEFT"; "RIGHT"].
Proof.
  apply (decision_cycle_emits_one_move
           (Message game_state_topic
              (GameState (5, 5)%Z [(5, 7)%Z] [] [(5, 7)%Z]
                         [(5, 7)%Z; (5, 7)%Z]))
           (init_world (λ _, 7%nat))).
  reflexivity.
Defined.

(** C7. On the board without walls, from (5,5) with the single real coin
    (5,7), in whichever of the three coin groups it is listed, [bfs]
    returns [RIGHT, RIGHT], the cycle aims at (5,7) and publishes RIGHT,
    leaving the fallback list and the random source as they were. *)
Theorem scenario_A (c1 c2 c3 : list cell) (w : world) :
  c1 ++ c2 ++ c3 = [(5, 7)%Z] →
  bfs (build_grid []) (5, 5)%Z (5, 7)%Z = Some ["RIGHT"; "RIGHT"] ∧
  choose_move (GameState (5, 5)%Z c1 c2 c3 []) w =
    (Ok (Decision (Some (5, 7)%Z) ["RIGHT"; "RIGHT"] "RIGHT"), w) ∧
  on_message (Message game_state_topic (GameState (5, 5)%Z c1 c2 c3 [])) w =
    (Ok tt, World (fake_coin_positions w)
                  (published w ++ [(move_topic, "RIGHT")])
                  (random_source w)).
Proof.
  intros Hcoins.
  assert (bfs (build_grid []) (5, 5)%Z (5, 7)%Z = Some ["RIGHT"; "RIGHT"])
    as Hbfs by by vm_compute.
  assert (choose_move (GameState (5, 5)%Z c1 c2 c3 []) w =
    (Ok (Decision (Some (5, 7)%Z) ["RIGHT"; "RIGHT"] "RIGHT"), w)) as Hd.
  { destruct (choose_move_real (GameState (5, 5)%Z c1 c2 c3 []) w)
      as (t & path & mv & rnd & Hmin & Hpath & -> & _ & Hfirst).
    { unfold coins_of. simpl. by rewrite Hcoins. }
    unfold coins_of in Hmin. simpl in Hmin, Hpath. rewrite Hcoins in Hmin.
    injection Hmin as <-. rewrite Hbfs in Hpath. injection Hpath as <-.
    destruct Hfirst as [-> ->]. by destruct w. }
  split_and!; [done..|].
  unfold on_message.
  replace (endswith (topic _) "/game_state") with true by by vm_compute.
  by rewrite (m_bind_Ok _ _ _ _ _ Hd).
Qed.

Lemma scenario_A_witness :
  bfs (build_grid []) (5, 5)%Z (5, 7)%Z = Some ["RIGHT"; "RIGHT"] ∧
  choose_move (GameState (5, 5)%Z [] [(5, 7)%Z] [] [])
              (init_world (λ _, 0%nat)) =
    (Ok (Decision (Some (5, 7)%Z) ["RIGHT"; "RIGHT"] "RIGHT"),
     init_world (λ _, 0%nat)) ∧
  on_message
    (Message game_state_topic (GameState (5, 5)%Z [] [(5, 7)%Z] [] []))
    (init_world (λ _, 0%nat)) =
    (Ok tt, World fake_coin_positions_init [(move_topic, "RIGHT")]
                  (λ _, 0%nat)).
Proof.
  apply (scenario_A [] [(5, 7)%Z] [] (init_world (λ _, 0%nat))).
  reflexivity.
Defined.

(** C10. A cycle with a non-empty real-coin list leaves the fallback list
    exactly as it was. The list changes in a cycle only when the message is
    a game state without real coins and the nearest fallback coin, the one
    aimed at, is within Manhattan distance 2 of the current position; the
    change is the removal of that coin. *)
Theorem real_coins_leave_fallback_set (msg : message) (w : world) :
  (coins_of (payload msg) ≠ [] →
   fake_coin_positions (on_message msg w).2 = fake_coin_positions w) ∧
  (fake_coin_positions (on_message msg w).2 ≠ fake_coin_positions w →
   endswith (topic msg) "/game_state" = true ∧
   coins_of (payload msg) = [] ∧
   ∃ d w1 t,
     choose_move (payload msg) w = (Ok d, w1) ∧ target d = Some t ∧
     py_min (manhattan_distance (currentPosition (payload msg)))
            (fake_coin_positions w) = Some t ∧
     (manhattan_distance (currentPosition (payload msg)) t ≤ 2)%Z ∧
     list_remove t (fake_coin_positions w) =
       Some (fake_coin_positions (on_message msg w).2)).
Proof.
  destruct (endswith (topic msg) "/game_state") eqn:Htopic;
    [|rewrite on_message_other by done; split; [done|by intros []]].
  destruct (on_message_cycle msg w Htopic) as (d & w1 & Hd & -> & _).
  cbn [snd fake_coin_positions].
  destruct (decide (coins_of (payload msg) = [])) as [Hcoins|Hcoins].
  - split; [done|]. intros Hchanged. split_and!; [done..|].
    destruct (decide (fake_coin_positions w = [])) as [Hfakes|Hfakes].
    + destruct (choose_move_none _ w Hcoins Hfakes) as (mv & Hd' & _).
      rewrite Hd in Hd'. injection Hd' as -> ->. simpl in Hchanged.
      by rewrite Hfakes in Hchanged.
    + destruct (choose_move_fake _ w Hcoins Hfakes)
        as (t & path & mv & fakes & rnd & Hmin & _ & Hd' & _ & _ & Hprune).
      rewrite Hd in Hd'. injection Hd' as -> ->. simpl in Hchanged.
      destruct Hprune as [[Hnear Hrem]|[_ ->]]; [|done].
      by eexists _, _, t.
  - destruct (choose_move_real _ w Hcoins)
      as (t & path & mv & rnd & _ & _ & Hd' & _).
    rewrite Hd in Hd'. injection Hd' as -> ->. simpl.
    split; [done|]. by intros [].
Qed.

Lemma real_coins_leave_fallback_set_witness :
  fake_coin_positions
    (on_message
       (Message game_state_topic (GameState (0, 1)%Z [(0, 0)%Z] [] [] []))
       (init_world (λ _, 0%nat))).2 =
  fake_coin_positions (init_world (λ _, 0%nat)).
Proof.
  apply (proj1 (real_coins_leave_fallback_set
           (Message game_state_topic (GameState (0, 1)%Z [(0, 0)%Z] [] [] []))
           (init_world (λ _, 0%nat)))).
  discriminate.
Defined.

(** * More on distances and paths *)

(** X1. [manhattan_distance] is a metric on cells, and one move changes the
    distance to any cell by exactly one. *)
Theorem manhattan_distance_metric (a b c : cell) :
  (0 ≤ manhattan_distance a b)%Z ∧
  manhattan_distance a b = manhattan_distance b a ∧
  (manhattan_distance a b = 0%Z ↔ a = b) ∧
  (manhattan_distance a c ≤ manhattan_distance a b + manhattan_distance b c)%Z ∧
  (∀ move d, (move, d) ∈ MOVES →
     manhattan_distance (shift a d) b = (manhattan_distance a b + 1)%Z ∨
     manhattan_distance (shift a d) b = (manhattan_distance a b - 1)%Z).
Proof.
  destruct a as [a1 a2], b as [b1 b2], c as [c1 c2].
  unfold manhattan_distance, shift. simpl. split_and!; [lia..| | |].
  - split; [intros H; f_equal; lia|intros [= -> ->]; lia].
  - lia.
  - intros move d [H|[H|[H|H]]]%elem_of_MOVES; inversion H; subst; simpl; lia.
Qed.

Lemma reach_manhattan ok start n c :
  reach ok start n c → (manhattan_distance start c ≤ Z.of_nat n)%Z.
Proof.
  induction 1 as [|n c c' _ IH Hadj _].
  - destruct start. unfold manhattan_distance. simpl. lia.
  - destruct start, c, c'. unfold manhattan_distance in *. simpl in *. lia.
Qed.

(** X2. The Manhattan distance never overestimates: a path returned by
    [bfs] that is not empty has at least as many moves as the Manhattan
    distance from start to goal. *)
Theorem bfs_at_least_manhattan (grid : gmap cell string) (start goal : cell) :
  ∃ path,
    bfs grid start goal = Some path ∧
    (path ≠ [] → (manhattan_distance start goal ≤ Z.of_nat (length path))%Z).
Proof.
  destruct (bfs_spec grid start goal) as (path & Hbfs & [[Hpath _]|[-> _]]).
  - exists path. split; [done|]. intros _.
    apply (reach_manhattan (passable grid)). apply reach_follow. by exists path.
  - by exists [].
Qed.

Lemma reach_in_box wall_positions start n :
  ∀ goal,
    Z.of_nat n = manhattan_distance start goal →
    (∀ c, in_box start goal c → c ≠ start → clear wall_positions c = true) →
    reach (clear wall_positions) start n goal.
Proof.
  induction n as [|n IH]; intros goal Hn Hbox.
  - assert (goal = start) as -> by (apply manhattan_distance_zero; lia).
    constructor.
  - destruct start as [s1 s2] eqn:Hs, goal as [g1 g2].
    unfold manhattan_distance in Hn. simpl in Hn.
    set (goal' := if bool_decide (g1 = s1)
                  then (g1, if bool_decide (s2 < g2)%Z
                            then (g2 - 1)%Z else (g2 + 1)%Z)
                  else (if bool_decide (s1 < g1)%Z
                        then (g1 - 1)%Z else (g1 + 1)%Z, g2)).
    assert ((g1, g2) ≠ (s1, s2)) as Hne by (intros [= -> ->]; lia).
    apply reach_step with goal'.
    + apply IH.
      * unfold goal', manhattan_distance.
        repeat case_bool_decide; simpl; lia.
      * intros [c1 c2] [Hc1 Hc2] Hc. apply Hbox; [|done].
        unfold goal', in_box in *.
        repeat case_bool_decide; simpl in *; lia.
    + unfold goal', manhattan_distance. repeat case_bool_decide; simpl; lia.
    + apply Hbox; [|done]. unfold in_box. simpl. lia.
Qed.

(** X3. When every cell of the rectangle spanned by start and goal (the
    start apart) is on the board and not a wall, the path [bfs] returns has
    exactly as many moves as the Manhattan distance from start to goal. *)
Theorem bfs_exact_in_clear_box (wall_positions : list cell)
    (start goal : cell) :
  (∀ c, in_box start goal c → c ≠ start → clear wall_positions c = true) →
  ∃ path,
    bfs (build_grid wall_positions) start goal = Some path ∧
    follow (clear wall_positions) start path = Some goal ∧
    Z.of_nat (length path) = manhattan_distance start goal.
Proof.
  intros Hbox.
  pose proof (reach_in_box wall_positions start
                (Z.to_nat (manhattan_distance start goal)) goal) as Hreach.
  assert (0 ≤ manhattan_distance start goal)%Z as Hpos
    by (unfold manhattan_distance; lia).
  specialize (Hreach ltac:(lia) Hbox).
  destruct (bfs_build_grid wall_positions start goal)
    as (path & Hbfs & [[Hpath Hmin]|[_ Hnone]]).
  - exists path. split_and!; [done..|].
    assert (manhattan_distance start goal ≤ Z.of_nat (length path))%Z
      by (apply (reach_manhattan (clear wall_positions)), reach_follow;
          by exists path).
    apply reach_follow in Hreach as (w & Hlen & Hw).
    apply Hmin, ple_length in Hw. lia.
  - apply reach_follow in Hreach as (w & _ & Hw). by destruct (Hnone w).
Qed.

Lemma bfs_exact_in_clear_box_witness :
  ∃ path,
    bfs (build_grid [(0, 0)%Z; (9, 9)%Z]) (2, 3)%Z (3, 2)%Z = Some path ∧
    follow (clear [(0, 0)%Z; (9, 9)%Z]) (2, 3)%Z path = Some (3, 2)%Z ∧
    Z.of_nat (length path) = manhattan_distance (2, 3)%Z (3, 2)%Z.
Proof.
  apply (bfs_exact_in_clear_box [(0, 0)%Z; (9, 9)%Z] (2, 3)%Z (3, 2)%Z).
  intros [x y] [Hx Hy] _. simpl in Hx, Hy.
  assert (x = 2 ∨ x = 3)%Z as [-> | ->] by lia;
    assert (y = 2 ∨ y = 3)%Z as [-> | ->] by lia; reflexivity.
Defined.

Lemma follow_mono (ok1 ok2 : cell → bool) pos p c :
  (∀ x, ok1 x = true → ok2 x = true) →
  follow ok1 pos p = Some c → follow ok2 pos p = Some c.
Proof.
  intros Hmono. revert pos. induction p as [|move p IH]; intros pos; simpl;
    [done|].
  destruct (move_delta move) as [d|]; [|done].
  destruct (ok1 (shift pos d)) eqn:Hok; [|done].
  rewrite (Hmono _ Hok). apply IH.
Qed.

Lemma clear_mono (walls1 walls2 : list cell) c :
  walls1 ⊆ walls2 → clear walls2 c = true → clear walls1 c = true.
Proof.
  unfold clear. intros Hsub [Hb Hw%bool_decide_eq_true]%andb_true_iff.
  rewrite Hb. simpl. apply bool_decide_eq_true. set_solver.
Qed.

(** X4. More walls never shorten the way: if the wall list grows and
    [bfs] still finds a path, it found one before, with no more moves. *)
Theorem bfs_more_walls_no_shorter (walls1 walls2 : list cell)
    (start goal : cell) :
  walls1 ⊆ walls2 →
  ∃ p1 p2,
    bfs (build_grid walls1) start goal = Some p1 ∧
    bfs (build_grid walls2) start goal = Some p2 ∧
    (p2 ≠ [] → p1 ≠ [] ∧ length p1 ≤ length p2).
Proof.
  intros Hsub.
  destruct (bfs_build_grid walls1 start goal) as (p1 & Hbfs1 & Hpost1).
  destruct (bfs_build_grid walls2 start goal) as (p2 & Hbfs2 & Hpost2).
  exists p1, p2. split_and!; [done..|]. intros Hp2.
  destruct Hpost2 as [[Hpath2 _]|[? _]]; [|done].
  apply (follow_mono _ (clear walls1)) in Hpath2;
    [|intros x; by apply clear_mono].
  destruct Hpost1 as [[Hpath1 Hmin1]|[_ Hnone]]; [|by destruct (Hnone p2)].
  split; [|by apply ple_length, Hmin1].
  intros ->. simpl in Hpath1. injection Hpath1 as ->.
  rewrite bfs_same_cell in Hbfs2. congruence.
Qed.

Lemma bfs_more_walls_no_shorter_witness :
  ∃ p1 p2,
    bfs (build_grid []) (5, 5)%Z (5, 7)%Z = Some p1 ∧
    bfs (build_grid [(5, 6)%Z]) (5, 5)%Z (5, 7)%Z = Some p2 ∧
    (p2 ≠ [] → p1 ≠ [] ∧ length p1 ≤ length p2).
Proof.
  apply (bfs_more_walls_no_shorter [] [(5, 6)%Z] (5, 5)%Z (5, 7)%Z).
  intros x Hx. by apply elem_of_nil in Hx.
Defined.

(** X5. A goal that is a wall or lies off the board is never walked to:
    [bfs] returns the empty list for it, from any start. *)
Theorem bfs_goal_not_clear (wall_positions : list cell) (start goal : cell) :
  clear wall_positions goal = false →
  bfs (build_grid wall_positions) start goal = Some [].
Proof.
  intros Hgoal.
  destruct (bfs_build_grid wall_positions start goal)
    as (path & Hbfs & [[Hpath _]|[-> _]]); [|done].
  destruct path as [|move path _] using rev_ind; [done|].
  apply follow_snoc_inv in Hpath as (c & d & _ & _ & _ & Hok). congruence.
Qed.

Lemma bfs_goal_not_clear_witness :
  bfs (build_grid [(5, 7)%Z]) (5, 5)%Z (5, 7)%Z = Some [] ∧
  bfs (build_grid []) (5, 5)%Z (5, 10)%Z = Some [].
Proof.
  split.
  - apply (bfs_goal_not_clear [(5, 7)%Z] (5, 5)%Z (5, 7)%Z). reflexivity.
  - apply (bfs_goal_not_clear [] (5, 5)%Z (5, 10)%Z). reflexivity.
Defined.

(** ** The cells of a path *)

Lemma follow_cons_inv ok pos move p g :
  follow ok pos (move :: p) = Some g →
  ∃ d, move_delta move = Some d ∧ ok (shift pos d) = true ∧
       follow ok (shift pos d) p = Some g.
Proof.
  simpl. destruct (move_delta move) as [d|]; [|done].
  destruct (ok (shift pos d)) eqn:Hok; [|done]. intros Hp. by exists d.
Qed.

Lemma visits_length ok p :
  ∀ pos g, follow ok pos p = Some g → length (visits pos p) = length p.
Proof.
  induction p as [|move p IH]; intros pos g Hp; [done|].
  apply follow_cons_inv in Hp as (d & Hd & _ & Hp). simpl. rewrite Hd.
  simpl. f_equal. by eapply IH.
Qed.

Lemma visits_ok ok p :
  ∀ pos g, follow ok pos p = Some g →
           Forall (λ x, ok x = true) (visits pos p).
Proof.
  induction p as [|move p IH]; intros pos g Hp; [by constructor|].
  apply follow_cons_inv in Hp as (d & Hd & Hok & Hp). simpl. rewrite Hd.
  constructor; [done|]. by eapply IH.
Qed.

(** A cell on the way splits the path in two. *)
Lemma visits_split ok p :
  ∀ pos g x,
    follow ok pos p = Some g → x ∈ pos :: visits pos p →
    ∃ q1 q2, p = q1 ++ q2 ∧ follow ok pos q1 = Some x ∧
             follow ok x q2 = Some g.
Proof.
  induction p as [|move p IH]; intros pos g x Hp Hx.
  - apply list_elem_of_singleton in Hx as ->. by exists [], [].
  - apply elem_of_cons in Hx as [->|Hx]; [by exists [], (move :: p)|].
    pose proof Hp as (d & Hd & Hok & Hp')%follow_cons_inv.
    simpl in Hx. rewrite Hd in Hx.
    destruct (IH _ _ _ Hp' Hx) as (q1 & q2 & -> & Hq1 & Hq2).
    exists (move :: q1), q2. split_and!; [done| |done].
    simpl. by rewrite Hd, Hok.
Qed.

(** A path with the fewest moves passes no cell twice. *)
Lemma shortest_NoDup ok p :
  ∀ pos g,
    follow ok pos p = Some g →
    (∀ w, follow ok pos w = Some g → length p ≤ length w) →
    NoDup (pos :: visits pos p).
Proof.
  induction p as [|move p IH]; intros pos g Hp Hmin.
  - simpl. apply NoDup_singleton.
  - pose proof Hp as (d & Hd & Hok & Hp')%follow_cons_inv.
    simpl. rewrite Hd. apply NoDup_cons. split.
    + intros Hin.
      destruct (visits_split _ _ _ _ _ Hp' Hin) as (q1 & q2 & -> & _ & Hq2).
      specialize (Hmin q2 Hq2). simpl in Hmin. rewrite length_app in Hmin.
      lia.
    + apply (IH _ g); [done|]. intros w Hw.
      assert (follow ok pos (move :: w) = Some g) as Hw'
        by (simpl; by rewrite Hd, Hok).
      specialize (Hmin _ Hw'). simpl in Hmin. lia.
Qed.

Lemma follow_visits_ext (ok1 ok2 : cell → bool) p :
  ∀ pos g,
    follow ok1 pos p = Some g →
    Forall (λ x, ok2 x = true) (visits pos p) →
    follow ok2 pos p = Some g.
Proof.
  induction p as [|move p IH]; intros pos g Hp Hall; [done|].
  apply follow_cons_inv in Hp as (d & Hd & Hok & Hp).
  simpl in *. rewrite Hd in *. apply Forall_cons in Hall as [Hok2 Hall].
  rewrite Hok2. by apply IH.
Qed.

Lemma length_board_cells : length board_cells = 100.
Proof. reflexivity. Qed.

(** X6. Along the path [bfs] returns no cell comes twice, the start
    included, and every cell stepped onto is on the board and not a wall;
    so a path has at most 100 moves, and at most 99 from a start on the
    board. *)
Theorem bfs_path_is_simple (wall_positions : list cell) (start goal : cell) :
  ∃ path,
    bfs (build_grid wall_positions) start goal = Some path ∧
    NoDup (start :: visits start path) ∧
    Forall (λ c, clear wall_positions c = true) (visits start path) ∧
    length path ≤ 100 ∧
    (on_board start = true → length path ≤ 99).
Proof.
  destruct (bfs_build_grid wall_positions start goal)
    as (path & Hbfs & [[Hpath Hmin]|[-> _]]).
  - exists path.
    assert (NoDup (start :: visits start path)) as Hnd.
    { apply (shortest_NoDup (clear wall_positions) _ _ goal); [done|].
      intros w Hw. by apply ple_length, Hmin. }
    pose proof (visits_ok _ _ _ _ Hpath) as Hok.
    assert (∀ x, x ∈ visits start path → x ∈ board_cells) as Hboard.
    { intros x Hx. rewrite Forall_forall in Hok. specialize (Hok x Hx).
      apply elem_of_board_cells. unfold clear in Hok.
      by apply andb_true_iff in Hok as [? _]. }
    rewrite <- (visits_length _ _ _ _ Hpath).
    split_and!; [done..| |].
    + apply NoDup_cons in Hnd as [_ Hnd].
      rewrite <- length_board_cells.
      by apply submseteq_length, NoDup_submseteq.
    + intros Hstart.
      assert (length (start :: visits start path) ≤ length board_cells) as Hle.
      { apply submseteq_length, NoDup_submseteq; [done|].
        intros x [->|Hx]%elem_of_cons; [by apply elem_of_board_cells|auto]. }
      rewrite length_board_cells in Hle. simpl in Hle. lia.
  - exists []. split_and!; [done|apply NoDup_singleton|by constructor|
                          simpl; lia|simpl; lia].
Qed.

(** X7. [bfs] does not look at the start cell itself: listing the start
    among the walls changes nothing in what it returns. *)
Theorem bfs_start_wall_ignored (wall_positions : list cell)
    (start goal : cell) :
  bfs (build_grid (start :: wall_positions)) start goal =
  bfs (build_grid wall_positions) start goal.
Proof.
  destruct (bfs_build_grid (start :: wall_positions) start goal)
    as (p1 & -> & Hpost1).
  destruct (bfs_build_grid wall_positions start goal) as (p2 & -> & Hpost2).
  f_equal.
  apply (bfs_post_unique (clear (start :: wall_positions)) start goal);
    [done|].
  assert (∀ x, clear (start :: wall_positions) x = true →
               clear wall_positions x = true) as Hmono.
  { intros x. apply clear_mono. set_solver. }
  destruct Hpost2 as [[Hpath Hmin]|[-> Hnone]].
  - left. split.
    + assert (NoDup (start :: visits start p2)) as [Hstart _]%NoDup_cons.
      { apply (shortest_NoDup (clear wall_positions) _ _ goal); [done|].
        intros w Hw. by apply ple_length, Hmin. }
      apply (follow_visits_ext (clear wall_positions)); [done|].
      pose proof (visits_ok _ _ _ _ Hpath) as Hok.
      rewrite Forall_forall in Hok |- *. intros x Hx.
      specialize (Hok x Hx). unfold clear in *.
      apply andb_true_iff in Hok as [-> Hw%bool_decide_eq_true]. simpl.
      apply bool_decide_eq_true. intros [->|?]%elem_of_cons; done.
    + intros w Hw. apply Hmin. by apply (follow_mono _ _ _ _ _ Hmono).
  - right. split; [done|]. intros w Hw. apply (Hnone w).
    by apply (follow_mono _ _ _ _ _ Hmono).
Qed.

Lemma code_shift p :
  ∀ x, foldl code_step x p = (x * 4 ^ length p + foldl code_step 0 p)%nat.
Proof.
  induction p as [|move p IH]; intros x; simpl; [lia|].
  rewrite (IH (code_step x move)), (IH (code_step 0 move)).
  unfold code_step. lia.
Qed.

Lemma ple_cons_inv a p q : ple (a :: p) (a :: q) → ple p q.
Proof.
  unfold ple, lexcode. simpl.
  rewrite (code_shift p (code_step 0 a)), (code_shift q (code_step 0 a)).
  intros [Hlt|[Hlen Hle]]; [left; lia|]. right.
  injection Hlen as Hlen. rewrite Hlen in Hle. split; [done|lia].
Qed.

(** X8. Planning again from the next cell gives the rest of the plan: when
    [bfs] returns a path with first move [first], that move is a key of
    [MOVES] leading onto a passable cell, and [bfs] from that cell to the
    same goal on the same map returns exactly the remaining moves. *)
Theorem bfs_replan_is_tail (grid : gmap cell string) (start goal : cell) :
  ∃ path,
    bfs grid start goal = Some path ∧
    ∀ first rest,
      path = first :: rest →
      ∃ d, (first, d) ∈ MOVES ∧
           passable grid (shift start d) = true ∧
           bfs grid (shift start d) goal = Some rest.
Proof.
  destruct (bfs_spec grid start goal) as (path & Hbfs & Hpost).
  exists path. split; [done|]. intros first rest ->.
  destruct Hpost as [[Hpath Hmin]|[? _]]; [|done].
  pose proof Hpath as (d & Hd & Hok & Hrest)%follow_cons_inv.
  exists d. split_and!; [by apply move_delta_elem_of|done|].
  destruct (bfs_spec grid (shift start d) goal)
    as (q & -> & [[Hq Hqmin]|[_ Hnone]]); [|by destruct (Hnone rest)].
  f_equal. apply ple_antisym; [by eapply follow_valid..|by apply Hqmin|].
  apply (ple_cons_inv first), Hmin. simpl. by rewrite Hd, Hok.
Qed.

(** * More on the callback *)

Lemma run_one msg w : run [msg] w = (on_message msg w).2.
Proof. by rewrite run_cons. Qed.

(** X9. Messages on other topics are ignored, and every game-state message
    adds exactly one entry to the outbox: after any sequence of messages
    the outbox is what it was, followed by one move on the move topic per
    game-state message, each one of the four keys of [MOVES]; the final
    state is the same as if only the game-state messages had arrived. *)
Theorem one_move_per_game_state (msgs : list message) (w : world) :
  ∃ moves,
    published (run msgs w) =
      published w ++ ((λ mv, (move_topic, mv)) <$> moves) ∧
    length moves = length (filter (λ m, is_game_state m = true) msgs) ∧
    Forall (λ mv, mv ∈ move_keys) moves ∧
    run msgs w = run (filter (λ m, is_game_state m = true) msgs) w.
Proof.
  revert w. induction msgs as [|msg msgs IH]; intros w.
  - exists []. simpl. by rewrite app_nil_r.
  - rewrite run_cons. destruct (is_game_state msg) eqn:Htopic.
    + rewrite filter_cons_True by done. rewrite run_cons.
      destruct (on_message_cycle msg w Htopic) as (d & w1 & _ & -> & Hmv & _).
      cbn [snd].
      destruct (IH (World (fake_coin_positions w1)
                          (published w ++ [(move_topic, next_move d)])
                          (random_source w1))) as (moves & Hpub & Hlen & Hall & Hrun).
      exists (next_move d :: moves). split_and!.
      * rewrite Hpub. simpl. by rewrite <- app_assoc.
      * simpl. by rewrite Hlen.
      * by constructor.
      * done.
    + rewrite filter_cons_False by (rewrite Htopic; done).
      rewrite on_message_other by done. apply IH.
Qed.

(** X10. A cycle removes at most one fallback coin; so after any sequence
    of messages the list has lost no more coins than game-state messages
    have arrived, and the four seeded corners outlast three messages. *)
Theorem at_most_one_fallback_coin_per_cycle (msgs : list message) (w : world) :
  (∀ msg,
     length (fake_coin_positions w) =
       length (fake_coin_positions (on_message msg w).2) ∨
     length (fake_coin_positions w) =
       S (length (fake_coin_positions (on_message msg w).2))) ∧
  length (fake_coin_positions w) ≤
    length (fake_coin_positions (run msgs w)) +
    length (filter (λ m, is_game_state m = true) msgs).
Proof.
  assert (∀ w msg,
     (length (fake_coin_positions w) =
       length (fake_coin_positions (on_message msg w).2) ∨
     length (fake_coin_positions w) =
       S (length (fake_coin_positions (on_message msg w).2))) ∧
     (is_game_state msg = false →
      fake_coin_positions (on_message msg w).2 = fake_coin_positions w))
    as Hone.
  { clear. intros w msg. destruct (is_game_state msg) eqn:Htopic;
      [|rewrite on_message_other by done; auto].
    split; [|done].
    destruct (on_message_cycle msg w Htopic) as (d & w1 & Hd & -> & _).
    cbn [snd fake_coin_positions].
    destruct (decide (coins_of (payload msg) = [])) as [Hcoins|Hcoins];
      [destruct (decide (fake_coin_positions w = [])) as [Hfakes|Hfakes]|].
    - destruct (choose_move_none _ w Hcoins Hfakes) as (mv & Hd' & _).
      rewrite Hd in Hd'. injection Hd' as -> ->. rewrite Hfakes. by left.
    - destruct (choose_move_fake _ w Hcoins Hfakes)
        as (t & path & mv & fakes & rnd & _ & _ & Hd' & _ & _ & Hprune).
      rewrite Hd in Hd'. injection Hd' as -> ->. simpl.
      destruct Hprune as [[_ Hrem]|[_ ->]]; [|by left].
      right. by apply list_remove_sublist in Hrem as [_ ?].
    - destruct (choose_move_real _ w Hcoins)
        as (t & path & mv & rnd & _ & _ & Hd' & _).
      rewrite Hd in Hd'. injection Hd' as -> ->. by left. }
  split; [intros msg; apply Hone|].
  revert w. induction msgs as [|msg msgs IH]; intros w; [simpl; lia|].
  rewrite run_cons. specialize (IH (on_message msg w).2).
  destruct (Hone w msg) as [Hlen Hsame].
  destruct (is_game_state msg) eqn:Htopic.
  - rewrite filter_cons_True by done. simpl. lia.
  - rewrite filter_cons_False by (rewrite Htopic; done).
    rewrite Hsame in * by done. lia.
Qed.

(** X11. What a cycle publishes: the path is the one [bfs] returns for the
    coin aimed at (empty when nothing is aimed at); if it is not empty the
    move is its first element and no random draw is made; if it is empty
    the move is the key of [MOVES] at the index the next draw gives modulo
    4, and exactly that one draw is used up. *)
Theorem move_is_first_step_or_random_draw (msg : message) (w : world) :
  is_game_state msg = true →
  ∃ d w1,
    choose_move (payload msg) w = (Ok d, w1) ∧
    on_message msg w =
      (Ok tt, World (fake_coin_positions w1)
                    (published w ++ [(move_topic, next_move d)])
                    (random_source w1)) ∧
    match target d with
    | Some t => bfs (build_grid (walls (payload msg)))
                    (currentPosition (payload msg)) t
                = Some (path_to_target d)
    | None => path_to_target d = []
    end ∧
    match path_to_target d with
    | first :: _ =>
        next_move d = first ∧ random_source w1 = random_source w
    | [] =>
        move_keys !! (random_source w 0 `mod` 4)%nat = Some (next_move d) ∧
        random_source w1 = (λ i, random_source w (S i))
    end.
Proof.
  intros Htopic.
  destruct (on_message_cycle msg w Htopic) as (d & w1 & Hd & Hmsg & _).
  exists d, w1. split_and!; [done..| |].
  - destruct (decide (coins_of (payload msg) = [])) as [Hcoins|Hcoins];
      [destruct (decide (fake_coin_positions w = [])) as [Hfakes|Hfakes]|].
    + destruct (choose_move_none _ w Hcoins Hfakes) as (mv & Hd' & _).
      rewrite Hd in Hd'. by injection Hd' as -> ->.
    + destruct (choose_move_fake _ w Hcoins Hfakes)
        as (t & path & mv & fakes & rnd & _ & Hbfs & Hd' & _).
      rewrite Hd in Hd'. by injection Hd' as -> ->.
    + destruct (choose_move_real _ w Hcoins)
        as (t & path & mv & rnd & _ & Hbfs & Hd' & _).
      rewrite Hd in Hd'. by injection Hd' as -> ->.
  - destruct (decide (coins_of (payload msg) = [])) as [Hcoins|Hcoins];
      [destruct (decide (fake_coin_positions w = [])) as [Hfakes|Hfakes]|].
    + destruct (choose_move_none _ w Hcoins Hfakes) as (mv & Hd' & _ & Hdraw).
      rewrite Hd in Hd'. by injection Hd' as -> ->.
    + destruct (choose_move_fake _ w Hcoins Hfakes)
        as (t & path & mv & fakes & rnd & _ & _ & Hd' & _ & Hdraw & _).
      rewrite Hd in Hd'. by injection Hd' as -> ->.
    + destruct (choose_move_real _ w Hcoins)
        as (t & path & mv & rnd & _ & _ & Hd' & _ & Hdraw).
      rewrite Hd in Hd'. by injection Hd' as -> ->.
Qed.

Lemma move_is_first_step_or_random_draw_witness :
  ∃ d w1,
    choose_move (GameState (5, 5)%Z [(2, 2)%Z] [] []
                   [(1, 2)%Z; (3, 2)%Z; (2, 1)%Z; (2, 3)%Z])
                (init_world (λ _, 6%nat)) = (Ok d, w1) ∧
    on_message
      (Message game_state_topic
         (GameState (5, 5)%Z [(2, 2)%Z] [] []
            [(1, 2)%Z; (3, 2)%Z; (2, 1)%Z; (2, 3)%Z]))
      (init_world (λ _, 6%nat)) =
      (Ok tt, World (fake_coin_positions w1)
                    ([] ++ [(move_topic, next_move d)])
                    (random_source w1)) ∧
    match target d with
    | Some t => bfs (build_grid [(1, 2)%Z; (3, 2)%Z; (2, 1)%Z; (2, 3)%Z])
                    (5, 5)%Z t
                = Some (path_to_target d)
    | None => path_to_target d = []
    end ∧
    match path_to_target d with
    | first :: _ =>
        next_move d = first ∧ random_source w1 = (λ _, 6%nat)
    | [] =>
        move_keys !! (6 `mod` 4)%nat = Some (next_move d) ∧
        random_source w1 = (λ i, 6%nat)
    end.
Proof.
  apply (move_is_first_step_or_random_draw
           (Message game_state_topic
              (GameState (5, 5)%Z [(2, 2)%Z] [] []
                 [(1, 2)%Z; (3, 2)%Z; (2, 1)%Z; (2, 3)%Z]))
           (init_world (λ _, 6%nat))).
  reflexivity.
Defined.

(** X12. Only the coin nearest by Manhattan distance is ever tried: when
    it is the cell the agent stands on, or cannot be reached, the cycle
    publishes the random draw and leaves the fallback list alone, whatever
    other coins the list holds and whether or not they can be reached. *)
Theorem unreachable_nearest_coin_random_move (msg : message) (w : world)
    (t : cell) :
  is_game_state msg = true →
  py_min (manhattan_distance (currentPosition (payload msg)))
         (coins_of (payload msg)) = Some t →
  (t = currentPosition (payload msg) ∨
   ¬ ∃ n, reach (clear (walls (payload msg)))
                (currentPosition (payload msg)) n t) →
  ∃ mv w',
    on_message msg w = (Ok tt, w') ∧
    published w' = published w ++ [(move_topic, mv)] ∧
    move_keys !! (random_source w 0 `mod` 4)%nat = Some mv ∧
    fake_coin_positions w' = fake_coin_positions w.
Proof.
  intros Htopic Hmin Hno.
  assert (coins_of (payload msg) ≠ []) as Hcoins
    by (intros Hnil; by rewrite Hnil in Hmin).
  destruct (on_message_cycle msg w Htopic) as (d & w1 & Hd & -> & _).
  destruct (choose_move_real _ w Hcoins)
    as (t' & path & mv & rnd & Hmin' & Hbfs & Hd' & _ & Hdraw).
  rewrite Hmin in Hmin'. injection Hmin' as <-.
  rewrite Hd in Hd'. injection Hd' as -> ->.
  assert (path = []) as ->.
  { destruct Hno as [->|Hno].
    - rewrite bfs_same_cell in Hbfs. congruence.
    - destruct (bfs_build_grid (walls (payload msg))
                  (currentPosition (payload msg)) t)
        as (path' & Hbfs' & [[Hpath _]|[-> _]]); [|congruence].
      destruct Hno. exists (length path'). apply reach_follow.
      by exists path'. }
  destruct Hdraw as [Hdraw _]. by eexists _, _.
Qed.

Lemma unreachable_nearest_coin_random_move_witness :
  ∃ mv w',
    on_message
      (Message game_state_topic
         (GameState (5, 5)%Z [(5, 7)%Z] [(5, 2)%Z] [] [(5, 7)%Z]))
      (init_world (λ _, 1%nat)) = (Ok tt, w') ∧
    published w' = [] ++ [(move_topic, mv)] ∧
    move_keys !! (1 `mod` 4)%nat = Some mv ∧
    fake_coin_positions w' = fake_coin_positions_init.
Proof.
  apply (unreachable_nearest_coin_random_move
           (Message game_state_topic
              (GameState (5, 5)%Z [(5, 7)%Z] [(5, 2)%Z] [] [(5, 7)%Z]))
           (init_world (λ _, 1%nat)) (5, 7)%Z).
  - reflexivity.
  - reflexivity.
  - right. intros [n H]. inversion H; discriminate.
Defined.

(** X13. With no real coin listed and fallback coins left, in any state of
    the list, the cycle aims at a fallback coin: one whose Manhattan
    distance to the current position is least, and the first such in the
    list's order; the path is computed for that coin. *)
Theorem nearest_fallback_coin_is_target (gs : game_state) (w : world) :
  coins_of gs = [] →
  fake_coin_positions w ≠ [] →
  ∃ d w1 t i,
    choose_move gs w = (Ok d, w1) ∧
    target d = Some t ∧
    fake_coin_positions w !! i = Some t ∧
    (∀ c, c ∈ fake_coin_positions w →
          (manhattan_distance (currentPosition gs) t ≤
           manhattan_distance (currentPosition gs) c)%Z) ∧
    (∀ j c, (j < i)%nat → fake_coin_positions w !! j = Some c →
            (manhattan_distance (currentPosition gs) t <
             manhattan_distance (currentPosition gs) c)%Z) ∧
    bfs (build_grid (walls gs)) (currentPosition gs) t
      = Some (path_to_target d).
Proof.
  intros Hcoins Hfakes.
  destruct (choose_move_fake gs w Hcoins Hfakes)
    as (t & path & mv & fakes & rnd & Hmin & Hbfs & Hd & _).
  destruct (py_min_spec (manhattan_distance (currentPosition gs))
              (fake_coin_positions w) Hfakes)
    as (t' & i & Hmin' & Hi & Hleast & Hfirst).
  rewrite Hmin in Hmin'. injection Hmin' as <-.
  eexists _, _, t, i. by split_and!.
Qed.

Lemma nearest_fallback_coin_is_target_witness :
  ∃ d w1 t i,
    choose_move (GameState (4, 4)%Z [] [] [] [])
                (init_world (λ _, 0%nat)) = (Ok d, w1) ∧
    target d = Some t ∧
    fake_coin_positions_init !! i = Some t ∧
    (∀ c, c ∈ fake_coin_positions_init →
          (manhattan_distance (4, 4)%Z t ≤ manhattan_distance (4, 4)%Z c)%Z) ∧
    (∀ j c, (j < i)%nat → fake_coin_positions_init !! j = Some c →
            (manhattan_distance (4, 4)%Z t < manhattan_distance (4, 4)%Z c)%Z) ∧
    bfs (build_grid []) (4, 4)%Z t = Some (path_to_target d).
Proof.
  apply (nearest_fallback_coin_is_target
           (GameState (4, 4)%Z [] [] [] []) (init_world (λ _, 0%nat))).
  - reflexivity.
  - discriminate.
Defined.

(** * The manual client's board *)

Example draw_board_sample :
  (λ grid : list (list string), join " " <$> grid) <$>
    draw_board (ManualGameState (0, 0)%Z [(0, 1)%Z] [(9, 9)%Z] [(0, 1)%Z]
                  [] [(5, 5)%Z] [(5, 5)%Z; (-1, -2)%Z])
  = Some [ "P C . . . . . . . .";
           ". . . . . . . . . .";
           ". . . . . . . . . .";
           ". . . . . . . . . .";
           ". . . . . . . . . .";
           ". . . . . W . . . .";
           ". . . . . . . . . .";
           ". . . . . . . . . .";
           ". . . . . . . . . .";
           ". . . . . . . . W E" ].
Proof. reflexivity. Qed.

Example draw_board_out_of_range :
  draw_board (ManualGameState (0, 0)%Z [] [] [] [] [] [(10, 0)%Z]) = None.
Proof. reflexivity. Qed.

Lemma py_index_10 i :
  py_index 10 i =
  if bool_decide (-10 ≤ i < 10)%Z then Some (Z.to_nat (i `mod` 10)) else None.
Proof.
  unfold py_index. change (Z.of_nat 10) with 10%Z.
  pose proof (Z.mod_pos_bound i 10 ltac:(lia)) as Hr.
  pose proof (Z.div_mod i 10 ltac:(lia)) as Hq.
  repeat case_bool_decide; try lia; f_equal; lia.
Qed.

Lemma cell_at_blank c :
  on_board c = true → cell_at (replicate 10 (replicate 10 ".")) c = Some ".".
Proof.
  unfold on_board, cell_at. intros [Hr Hc]%bool_decide_eq_true.
  rewrite lookup_replicate_2 by lia. simpl.
  apply (lookup_replicate_2 10 "."). lia.
Qed.

Lemma grid_assign_ok grid p v :
  ten_by_ten grid → index_ok p = true →
  ∃ grid',
    grid_assign grid p v = Some grid' ∧ ten_by_ten grid' ∧
    ∀ c, on_board c = true →
         cell_at grid' c =
         if decide (c = wrap_cell p) then Some v else cell_at grid c.
Proof.
  intros [Hlen Hrows] [Hp1 Hp2]%bool_decide_eq_true.
  unfold grid_assign. rewrite Hlen, py_index_10.
  rewrite bool_decide_eq_true_2 by done. simpl.
  pose proof (Z.mod_pos_bound p.1 10 ltac:(lia)) as Hr.
  pose proof (Z.mod_pos_bound p.2 10 ltac:(lia)) as Hc.
  destruct (lookup_lt_is_Some_2 grid (Z.to_nat (p.1 `mod` 10)))
    as [row Hrow]; [lia|].
  rewrite Hrow. simpl.
  assert (length row = 10) as Hrowlen
    by (rewrite Forall_forall in Hrows; eapply Hrows, list_elem_of_lookup_2;
        done).
  rewrite Hrowlen, py_index_10. rewrite bool_decide_eq_true_2 by done. simpl.
  eexists. split_and!; [done| |].
  - split; [by rewrite length_insert|].
    apply Forall_insert; [done|]. by rewrite length_insert.
  - intros [x y] [Hx Hy]%bool_decide_eq_true. simpl in Hx, Hy.
    unfold cell_at, wrap_cell. simpl. rewrite list_lookup_insert.
    destruct (decide (Z.to_nat (p.1 `mod` 10) = Z.to_nat x)) as [Heq|Hne].
    + rewrite decide_True by (split; [done|lia]). simpl.
      rewrite <- Heq, Hrow. simpl. rewrite list_lookup_insert.
      destruct (decide (Z.to_nat (p.2 `mod` 10) = Z.to_nat y)) as [Heq'|Hne'].
      * rewrite decide_True by (split; [done|lia]).
        rewrite decide_True; [done|]. f_equal; lia.
      * rewrite decide_False by tauto.
        rewrite decide_False; [done|]. intros [= -> ->]. done.
    + rewrite decide_False by tauto.
      rewrite decide_False; [done|]. intros [= -> ->]. done.
Qed.

Lemma grid_assign_fail grid p v :
  ten_by_ten grid → index_ok p = false → grid_assign grid p v = None.
Proof.
  intros [Hlen Hrows] Hp%bool_decide_eq_false.
  unfold grid_assign. rewrite Hlen, py_index_10.
  case_bool_decide as Hp1; [|done]. simpl.
  pose proof (Z.mod_pos_bound p.1 10 ltac:(lia)) as Hr.
  destruct (lookup_lt_is_Some_2 grid (Z.to_nat (p.1 `mod` 10)))
    as [row Hrow]; [lia|].
  rewrite Hrow. simpl.
  assert (length row = 10) as Hrowlen
    by (rewrite Forall_forall in Hrows; eapply Hrows, list_elem_of_lookup_2;
        done).
  rewrite Hrowlen, py_index_10. rewrite bool_decide_eq_false_2; [done|]. lia.
Qed.

Lemma mark_all_ok v ps :
  ∀ grid,
    ten_by_ten grid → Forall (λ p, index_ok p = true) ps →
    ∃ grid',
      mark_all v ps grid = Some grid' ∧ ten_by_ten grid' ∧
      ∀ c, on_board c = true →
           cell_at grid' c =
           if decide (c ∈ wrap_cell <$> ps) then Some v else cell_at grid c.
Proof.
  induction ps as [|p ps IH]; intros grid Hdims Hall.
  - exists grid. split_and!; [done..|]. intros c _.
    rewrite decide_False; [done|]. simpl. apply not_elem_of_nil.
  - apply Forall_cons in Hall as [Hp Hall].
    destruct (grid_assign_ok grid p v Hdims Hp) as (grid1 & Hg1 & Hd1 & Hc1).
    destruct (IH grid1 Hd1 Hall) as (grid2 & Hg2 & Hd2 & Hc2).
    exists grid2. cbn [mark_all]. rewrite Hg1. split_and!; [done..|].
    intros c Hc. rewrite Hc2, Hc1 by done. rewrite fmap_cons.
    destruct (decide (c ∈ wrap_cell <$> ps)) as [Hin|Hin].
    + rewrite decide_True; [done|by right].
    + destruct (decide (c = wrap_cell p)) as [->|Hne].
      * rewrite decide_True; [done|left].
      * rewrite decide_False; [done|]. intros [?|?]%elem_of_cons; done.
Qed.

Lemma mark_all_fail v ps :
  ∀ grid,
    ten_by_ten grid → ¬ Forall (λ p, index_ok p = true) ps →
    mark_all v ps grid = None.
Proof.
  induction ps as [|p ps IH]; intros grid Hdims Hall.
  - destruct Hall. constructor.
  - simpl. destruct (index_ok p) eqn:Hp.
    + destruct (grid_assign_ok grid p v Hdims Hp) as (grid1 & -> & Hd1 & _).
      apply IH; [done|]. intros Hps. apply Hall. by constructor.
    + by rewrite grid_assign_fail.
Qed.

Lemma draw_board_ok gs :
  Forall (λ p, index_ok p = true) (manual_positions gs) →
  ∃ grid,
    draw_board gs = Some grid ∧ ten_by_ten grid ∧
    ∀ c, on_board c = true → cell_at grid c = Some (symbol_at gs c).
Proof.
  unfold manual_positions. rewrite Forall_cons, !Forall_app.
  intros (Hcur & Ht & He & Hc & Hw).
  assert (ten_by_ten (replicate 10 (replicate 10 "."))) as Hd0
    by (split; [done|by repeat constructor]).
  destruct (grid_assign_ok _ (m_currentPosition gs) "P" Hd0 Hcur)
    as (g1 & Hg1 & Hd1 & Hc1).
  destruct (mark_all_ok "T" _ g1 Hd1 Ht) as (g2 & Hg2 & Hd2 & Hc2).
  destruct (mark_all_ok "E" _ g2 Hd2 He) as (g3 & Hg3 & Hd3 & Hc3).
  destruct (mark_all_ok "C" _ g3 Hd3 Hc) as (g4 & Hg4 & Hd4 & Hc4).
  destruct (mark_all_ok "W" _ g4 Hd4 Hw) as (g5 & Hg5 & Hd5 & Hc5).
  exists g5. split_and!; [|done|].
  - unfold draw_board. rewrite Hg1. simpl. rewrite Hg2. simpl.
    rewrite Hg3. simpl. fold (manual_coins gs). rewrite Hg4. simpl. done.
  - intros c Hon. rewrite Hc5, Hc4, Hc3, Hc2, Hc1, cell_at_blank by done.
    unfold symbol_at.
    repeat (case_decide; [rewrite bool_decide_eq_true_2 by done; done
                         |rewrite bool_decide_eq_false_2 by done]).
    done.
Qed.

Lemma draw_board_fail gs :
  ¬ Forall (λ p, index_ok p = true) (manual_positions gs) →
  draw_board gs = None.
Proof.
  unfold manual_positions. rewrite Forall_cons, !Forall_app. intros Hbad.
  assert (ten_by_ten (replicate 10 (replicate 10 "."))) as Hd0
    by (split; [done|by repeat constructor]).
  unfold draw_board. fold (manual_coins gs).
  destruct (index_ok (m_currentPosition gs)) eqn:Hcur;
    [|by rewrite grid_assign_fail].
  destruct (grid_assign_ok _ (m_currentPosition gs) "P" Hd0 Hcur)
    as (g1 & -> & Hd1 & _). simpl.
  destruct (decide (Forall (λ p, index_ok p = true) (m_teammatePositions gs)))
    as [Ht|Ht]; [|by rewrite mark_all_fail].
  destruct (mark_all_ok "T" _ g1 Hd1 Ht) as (g2 & -> & Hd2 & _). simpl.
  destruct (decide (Forall (λ p, index_ok p = true) (m_enemyPositions gs)))
    as [He|He]; [|by rewrite mark_all_fail].
  destruct (mark_all_ok "E" _ g2 Hd2 He) as (g3 & -> & Hd3 & _). simpl.
  destruct (decide (Forall (λ p, index_ok p = true) (manual_coins gs)))
    as [Hc|Hc]; [|by rewrite mark_all_fail].
  destruct (mark_all_ok "C" _ g3 Hd3 Hc) as (g4 & -> & Hd4 & _). simpl.
  apply mark_all_fail; [done|]. intros Hw. by apply Hbad.
Qed.

(** ** Joined rows *)

Lemma join_cons2 sep x y l :
  join sep (x :: y :: l) = x +:+ sep +:+ join sep (y :: l).
Proof. done. Qed.

Lemma append_String a s t : String a s +:+ t = String a (s +:+ t).
Proof. done. Qed.

Lemma append_empty t : "" +:+ t = t.
Proof. done. Qed.

Lemma join_single_chars (l : list string) :
  Forall (λ s, String.length s = 1) l →
  (l ≠ [] → String.length (join " " l) = 2 * length l - 1) ∧
  (∀ k, k < length l →
        String.get (2 * k) (join " " l) = l !! k ≫= String.get 0) ∧
  (∀ k, S k < length l →
        String.get (2 * k + 1) (join " " l) = String.get 0 " ").
Proof.
  induction l as [|x l IH]; intros Hall.
  - split_and!; [done|intros; simpl in *; lia..].
  - apply Forall_cons in Hall as [Hx Hall].
    destruct x as [|a [|? ?]]; try (simpl in Hx; lia). clear Hx.
    destruct (IH Hall) as (Hlen & Heven & Hodd).
    destruct l as [|y l].
    + split_and!; [done| |intros; simpl in *; lia].
      intros k Hk. simpl in Hk. by replace k with 0 by lia.
    + rewrite join_cons2. set (rest := join " " (y :: l)) in *.
      rewrite !append_String, !append_empty. split_and!.
      * intros _. cbn [String.length]. rewrite Hlen by done. simpl. lia.
      * intros [|k] Hk; [done|].
        replace (2 * S k) with (S (S (2 * k))) by lia. cbn [String.get].
        rewrite Heven by (simpl in *; lia). done.
      * intros [|k] Hk; [done|].
        replace (2 * S k + 1) with (S (S (2 * k + 1))) by lia.
        cbn [String.get]. apply Hodd. simpl in *. lia.
Qed.

Lemma symbol_at_length gs c : String.length (symbol_at gs c) = 1.
Proof. unfold symbol_at. by repeat case_bool_decide. Qed.

(** X14. The manual client's callback on a game-state message ends
    normally exactly when every coordinate of the snapshot (player,
    teammates, enemies, coins, walls) has both components between -10 and 9;
    otherwise it raises IndexError after printing the state only, with no
    line of the board. *)
Theorem manual_callback_outcome (msg : manual_message) :
  endswith (m_topic msg) "/game_state" = true →
  ((manual_on_message msg).2 = Ok tt ↔
   Forall (λ p, index_ok p = true) (manual_positions (m_payload msg))) ∧
  (¬ Forall (λ p, index_ok p = true) (manual_positions (m_payload msg)) →
   manual_on_message msg =
     ([PrintedState (m_payload msg)], Raise IndexError)).
Proof.
  intros Htopic. unfold manual_on_message. rewrite Htopic.
  destruct (decide (Forall (λ p, index_ok p = true)
                      (manual_positions (m_payload msg)))) as [Hok|Hbad].
  - destruct (draw_board_ok _ Hok) as (grid & -> & _). by split.
  - rewrite (draw_board_fail _ Hbad). split; [|done]. by split.
Qed.

Lemma manual_callback_outcome_witness :
  ((manual_on_message
      (ManualMessage "games/TestLobby/Player1/game_state"
         (ManualGameState (0, 0)%Z [] [] [] [] [] [(10, 0)%Z]))).2 = Ok tt ↔
   Forall (λ p, index_ok p = true) [(0, 0)%Z; (10, 0)%Z]) ∧
  (¬ Forall (λ p, index_ok p = true) [(0, 0)%Z; (10, 0)%Z] →
   manual_on_message
     (ManualMessage "games/TestLobby/Player1/game_state"
        (ManualGameState (0, 0)%Z [] [] [] [] [] [(10, 0)%Z])) =
     ([PrintedState (ManualGameState (0, 0)%Z [] [] [] [] [] [(10, 0)%Z])],
      Raise IndexError)).
Proof.
  apply (manual_callback_outcome
           (ManualMessage "games/TestLobby/Player1/game_state"
              (ManualGameState (0, 0)%Z [] [] [] [] [] [(10, 0)%Z]))).
  reflexivity.
Defined.

(** X15. On the drawn board every cell shows the last mark written on it:
    W for a wall, else C for a coin, else E for an enemy, else T for a
    teammate, else P for the player, else a dot; a coordinate with a
    negative component marks the cell counted from the far edge. *)
Theorem board_symbol_precedence (gs : manual_game_state) (c : cell) :
  Forall (λ p, index_ok p = true) (manual_positions gs) →
  on_board c = true →
  ∃ grid,
    draw_board gs = Some grid ∧ ten_by_ten grid ∧
    cell_at grid c = Some (symbol_at gs c).
Proof.
  intros Hok Hc.
  destruct (draw_board_ok gs Hok) as (grid & Hg & Hdims & Hcells).
  exists grid. split_and!; [done..|]. by apply Hcells.
Qed.

Lemma board_symbol_precedence_witness :
  ∃ grid,
    draw_board (ManualGameState (0, 0)%Z [(0, 1)%Z] [(-9, -9)%Z] [(0, 1)%Z]
                  [] [] [(1, 0)%Z; (1, 1)%Z]) = Some grid ∧
    ten_by_ten grid ∧
    cell_at grid (1, 1)%Z =
    Some (symbol_at
            (ManualGameState (0, 0)%Z [(0, 1)%Z] [(-9, -9)%Z] [(0, 1)%Z]
               [] [] [(1, 0)%Z; (1, 1)%Z])
            (1, 1)%Z).
Proof.
  apply (board_symbol_precedence
           (ManualGameState (0, 0)%Z [(0, 1)%Z] [(-9, -9)%Z] [(0, 1)%Z]
              [] [] [(1, 0)%Z; (1, 1)%Z])
           (1, 1)%Z).
  - repeat constructor.
  - reflexivity.
Defined.

(** X16. When every coordinate is valid, the callback prints the state,
    the line "Game state:" and ten lines; each line has 19 characters: the
    symbols of the ten cells of its row at the even positions, a blank
    between neighbours. *)
Theorem board_lines_format (msg : manual_message) :
  endswith (m_topic msg) "/game_state" = true →
  Forall (λ p, index_ok p = true) (manual_positions (m_payload msg)) →
  ∃ lines,
    manual_on_message msg =
      ([PrintedState (m_payload msg); PrintedLine "Game state:"] ++
       (PrintedLine <$> lines), Ok tt) ∧
    length lines = 10 ∧
    ∀ c, on_board c = true →
         ∃ line,
           lines !! Z.to_nat c.1 = Some line ∧
           String.length line = 19 ∧
           String.get (2 * Z.to_nat c.2) line =
             String.get 0 (symbol_at (m_payload msg) c) ∧
           ((c.2 < 9)%Z →
            String.get (2 * Z.to_nat c.2 + 1) line = String.get 0 " ").
Proof.
  intros Htopic Hok.
  destruct (draw_board_ok _ Hok) as (grid & Hg & [Hlen Hrows] & Hcells).
  exists (join " " <$> grid). split_and!.
  - unfold manual_on_message. rewrite Htopic, Hg.
    by rewrite <- list_fmap_compose.
  - by rewrite length_fmap.
  - intros [x y] Hc. pose proof Hc as [Hx Hy]%bool_decide_eq_true.
    simpl in Hx, Hy.
    destruct (lookup_lt_is_Some_2 grid (Z.to_nat x)) as [row Hrow]; [lia|].
    assert (length row = 10) as Hrowlen
      by (rewrite Forall_forall in Hrows;
          eapply Hrows, list_elem_of_lookup_2; done).
    assert (Forall (λ s, String.length s = 1) row) as Hchars.
    { apply Forall_lookup. intros k s Hk.
      assert (k < 10) as Hk10
        by (rewrite <- Hrowlen; by eapply lookup_lt_Some).
      specialize (Hcells (x, Z.of_nat k)). unfold cell_at in Hcells.
      simpl in Hcells. rewrite Hrow, Nat2Z.id in Hcells. simpl in Hcells.
      rewrite Hk in Hcells.
      assert (Some s = Some (symbol_at (m_payload msg) (x, Z.of_nat k))) as Hs
        by (apply Hcells, bool_decide_eq_true; simpl; lia).
      injection Hs as ->. apply symbol_at_length. }
    destruct (join_single_chars row Hchars) as (Hjlen & Heven & Hodd).
    exists (join " " row). cbn [fst snd]. split_and!.
    + by rewrite list_lookup_fmap, Hrow.
    + rewrite Hjlen; [lia|]. intros ->. done.
    + rewrite Heven by lia. specialize (Hcells (x, y) Hc).
      unfold cell_at in Hcells. simpl in Hcells. rewrite Hrow in Hcells.
      simpl in Hcells. by rewrite Hcells.
    + intros Hy9. apply Hodd. lia.
Qed.

Lemma board_lines_format_witness :
  ∃ lines,
    manual_on_message
      (ManualMessage "games/TestLobby/Player1/game_state"
         (ManualGameState (0, 0)%Z [] [(3, 4)%Z] [] [] [] [(9, -1)%Z])) =
      ([PrintedState
          (ManualGameState (0, 0)%Z [] [(3, 4)%Z] [] [] [] [(9, -1)%Z]);
        PrintedLine "Game state:"] ++ (PrintedLine <$> lines), Ok tt) ∧
    length lines = 10 ∧
    ∀ c, on_board c = true →
         ∃ line,
           lines !! Z.to_nat c.1 = Some line ∧
           String.length line = 19 ∧
           String.get (2 * Z.to_nat c.2) line =
             String.get 0
               (symbol_at
                  (ManualGameState (0, 0)%Z [] [(3, 4)%Z] [] [] []
                     [(9, -1)%Z]) c) ∧
           ((c.2 < 9)%Z →
            String.get (2 * Z.to_nat c.2 + 1) line = String.get 0 " ").
Proof.
  apply (board_lines_format
           (ManualMessage "games/TestLobby/Player1/game_state"
              (ManualGameState (0, 0)%Z [] [(3, 4)%Z] [] [] [] [(9, -1)%Z]))).
  - reflexivity.
  - repeat constructor.
Defined.

(** X17. The two clients agree on the walls: for a snapshot whose wall
    coordinates are all on the board, a cell of the board shows W on the
    manual client's drawing exactly when the automatic client's obstacle
    map, built from the same wall list, answers "not passable" for it. *)
Theorem clients_agree_on_walls (gs : manual_game_state) (c : cell) :
  Forall (λ p, index_ok p = true) (manual_positions gs) →
  Forall (λ p, on_board p = true) (m_walls gs) →
  on_board c = true →
  ∃ grid,
    draw_board gs = Some grid ∧
    (cell_at grid c = Some "W" ↔
     passable (build_grid (m_walls gs)) c = false).
Proof.
  intros Hok Hwalls Hc.
  destruct (draw_board_ok gs Hok) as (grid & Hg & _ & Hcells).
  exists grid. split; [done|]. rewrite (Hcells c Hc).
  rewrite passable_build_grid. unfold clear. rewrite Hc. simpl.
  assert (c ∈ wrap_cell <$> m_walls gs ↔ c ∈ m_walls gs) as Hwrap.
  { rewrite list_elem_of_fmap. split.
    - intros (p & -> & Hp). rewrite Forall_forall in Hwalls.
      specialize (Hwalls p Hp). apply bool_decide_eq_true in Hwalls.
      destruct p as [p1 p2]. unfold wrap_cell. simpl in *.
      by rewrite !Z.mod_small by lia.
    - intros Hin. exists c. split; [|done]. destruct c as [x y].
      apply bool_decide_eq_true in Hc. unfold wrap_cell. simpl in *.
      by rewrite !Z.mod_small by lia. }
  unfold symbol_at. case_bool_decide as Hw.
  - apply Hwrap in Hw.
    rewrite (bool_decide_eq_false_2 (c ∉ m_walls gs)) by (intros Hn; done).
    done.
  - rewrite (bool_decide_eq_true_2 (c ∉ m_walls gs))
      by (intros Hn; by apply Hw, Hwrap).
    split; [|done]. repeat case_bool_decide; discriminate.
Qed.

Lemma clients_agree_on_walls_witness :
  ∃ grid,
    draw_board (ManualGameState (0, 0)%Z [] [] [(5, 6)%Z] [] []
                  [(5, 6)%Z; (2, 2)%Z]) = Some grid ∧
    (cell_at grid (5, 6)%Z = Some "W" ↔
     passable (build_grid [(5, 6)%Z; (2, 2)%Z]) (5, 6)%Z = false).
Proof.
  apply (clients_agree_on_walls
           (ManualGameState (0, 0)%Z [] [] [(5, 6)%Z] [] []
              [(5, 6)%Z; (2, 2)%Z])
           (5, 6)%Z).
  - repeat constructor.
  - repeat constructor.
  - reflexivity.
Defined.
